(** * Authorization query engine of w3up-client, and the delegation and
    account stores of the access API.

    The query builder of [authorization/query.js] produces datalogia
    clauses; the clause language and its evaluator, the fact projection of
    delegations and the helper matchers of [agent/capability.js],
    [agent/delegation.js], [agent/attestation.js] and [agent/db/text.js] are
    modelled after the specification, [query], [explicit], [implicit] and
    [match] after the source. *)

From Stdlib Require Import String Ascii ZArith List Bool Lia DecimalString Permutation.
From stdpp Require Import base gmap strings.
Import ListNotations.
Open Scope string_scope.
Open Scope list_scope.

(* ------------------------------------------------------------------ *)
(** ** Scalars, terms and bindings *)

(** A scalar value of the fact store: strings (DIDs, abilities), integers
    (epoch seconds), the non-expiring expiration [Infinity], content links
    (delegation cids) and the entity of the [i]-th capability of a
    delegation. *)
Inductive scalar :=
| SStr (s : string)
| SInt (z : Z)
| SInf
| SLink (c : string)
| SCap (c : string) (i : nat).

Definition scalar_eq_dec (a b : scalar) : {a = b} + {a <> b}.
Proof. decide equality; first [apply string_dec | apply Z.eq_dec | apply Nat.eq_dec]. Defined.

Definition scalar_eqb (a b : scalar) : bool :=
  if scalar_eq_dec a b then true else false.

(** [DB.Term]: a logic variable or a constant. *)
Inductive term :=
| Var (n : nat)
| Const (v : scalar).

(** A binding: variable id to the scalar it is bound to. *)
Definition env := list (nat * scalar).

Fixpoint lookup_env (n : nat) (e : env) : option scalar :=
  match e with
  | [] => None
  | (m, v) :: e' => if Nat.eqb n m then Some v else lookup_env n e'
  end.

Definition resolve (t : term) (e : env) : option scalar :=
  match t with
  | Var n => lookup_env n e
  | Const v => Some v
  end.

(** Unification of a term with a matched scalar: a bound variable or a
    constant must agree, an unbound variable gets bound. *)
Definition unify (t : term) (v : scalar) (e : env) : option env :=
  match t with
  | Var n =>
      match lookup_env n e with
      | Some v' => if scalar_eqb v' v then Some e else None
      | None => Some ((n, v) :: e)
      end
  | Const c => if scalar_eqb c v then Some e else None
  end.

(* ------------------------------------------------------------------ *)
(** ** Glob patterns *)

(** [glob pattern text]: [*] matches any run of characters, every other
    character matches itself. *)
Fixpoint glob (p t : string) : bool :=
  match p with
  | EmptyString => match t with EmptyString => true | _ => false end
  | String c p' =>
      if Ascii.eqb c "*"%char then
        (fix star (t : string) : bool :=
           glob p' t || match t with
                        | EmptyString => false
                        | String _ t' => star t'
                        end) t
      else
        match t with
        | EmptyString => false
        | String c' t' => Ascii.eqb c c' && glob p' t'
        end
  end.

(* ------------------------------------------------------------------ *)
(** ** Clauses and their evaluation (datalogia) *)

Definition fact := (scalar * string * scalar)%type.

(** The clause language: [Match], [And], [Or], [Not], [Glob] (text term
    first, pattern term second, as in [DB.glob(text, pattern)]), the
    equality constraint [Is] used for exact text constraints, and the
    comparison [Gte] used for the expiration filter. *)
Inductive clause :=
| Match (e : term) (a : string) (v : term)
| And (x y : clause)
| Or (x y : clause)
| Not (x : clause)
| Glob (t p : term)
| Is (t u : term)
| Gte (t u : term).

(** [expiration >= time] with [Infinity] above every finite time. *)
Definition scalar_ge (a b : scalar) : bool :=
  match a, b with
  | SInt x, SInt y => Z.leb y x
  | SInf, SInt _ => true
  | SInf, SInf => true
  | _, _ => false
  end.

(** Modelled from the spec (section 4.4, the datalogia evaluator): the
    bindings that satisfy a clause, starting from a binding. [Match] scans
    the facts of its attribute and unifies entity and value; [And] threads
    the bindings of its left operand through its right operand; [Or]
    concatenates; [Not] keeps the binding when its operand has no solution;
    constraints on an unbound term have no solution. *)
Fixpoint eval (F : list fact) (c : clause) (e : env) : list env :=
  match c with
  | Match t a u =>
      flat_map (fun f =>
        match f with
        | (fe, fa, fv) =>
            if String.eqb fa a then
              match unify t fe e with
              | Some e1 => match unify u fv e1 with
                           | Some e2 => [e2]
                           | None => []
                           end
              | None => []
              end
            else []
        end) F
  | And x y => flat_map (eval F y) (eval F x e)
  | Or x y => eval F x e ++ eval F y e
  | Not x => match eval F x e with [] => [e] | _ :: _ => [] end
  | Glob t p =>
      match resolve t e, resolve p e with
      | Some (SStr s), Some (SStr pat) => if glob pat s then [e] else []
      | _, _ => []
      end
  | Is t u =>
      match resolve u e with
      | Some v => match unify t v e with Some e' => [e'] | None => [] end
      | None => []
      end
  | Gte t u =>
      match resolve t e, resolve u e with
      | Some a, Some b => if scalar_ge a b then [e] else []
      | _, _ => []
      end
  end.

(** The [where] list of a query is a conjunction, evaluated in order. *)
Fixpoint eval_all (F : list fact) (cs : list clause) (e : env) : list env :=
  match cs with
  | [] => [e]
  | c :: cs' => flat_map (eval_all F cs') (eval F c e)
  end.

(* ------------------------------------------------------------------ *)
(** ** Delegations and their facts *)

Record capability := mkCapability {
  cap_can : string;
  cap_with : string;
  cap_nb : list (string * scalar)
}.

(** A delegation with its cid, issuer and audience DIDs, expiration
    ([None] for no expiration), capabilities and proof links. *)
Record delegation := mkDelegation {
  cid : string;
  issuer : string;
  audience : string;
  expiration : option Z;
  capabilities : list capability;
  proofs : list string
}.

Definition expiration_scalar (d : delegation) : scalar :=
  match expiration d with Some t => SInt t | None => SInf end.

Fixpoint capability_facts (c : string) (i : nat) (caps : list capability)
  : list fact :=
  match caps with
  | [] => []
  | k :: caps' =>
      [(SCap c i, "capability/can", SStr (cap_can k));
       (SCap c i, "capability/with", SStr (cap_with k))]
      ++ map (fun fv => (SCap c i, String.append "capability/nb/" (fst fv), snd fv))
             (cap_nb k)
      ++ [(SLink c, "ucan/capability", SCap c i)]
      ++ capability_facts c (S i) caps'
  end.

(** Modelled from the spec (section 4.3, the delegation-to-fact projector). *)
Definition delegation_facts (d : delegation) : list fact :=
  [(SLink (cid d), "ucan/issuer", SStr (issuer d));
   (SLink (cid d), "ucan/audience", SStr (audience d));
   (SLink (cid d), "ucan/expiration", expiration_scalar d)]
  ++ capability_facts (cid d) 0 (capabilities d)
  ++ map (fun p => (SLink (cid d), "ucan/proof", SLink p)) (proofs d).

(** Modelled from the spec ([buildIndex]): the facts of every delegation
    of the set; delegations referenced as proofs are part of the set. *)
Definition build_index (ds : list delegation) : list fact :=
  flat_map delegation_facts ds.

(* ------------------------------------------------------------------ *)
(** ** Fresh variables ([DB.string()], [DB.link()], [DB.integer()]) *)

(** Variable allocation threads a counter; ids are scoped to one query. *)
Definition Fresh (A : Type) : Type := nat -> A * nat.

Definition fret {A} (a : A) : Fresh A := fun n => (a, n).
Definition fbind {A B} (m : Fresh A) (k : A -> Fresh B) : Fresh B :=
  fun n => let (a, n') := m n in k a n'.

Notation "'let*' x ':=' c 'in' k" := (fbind c (fun x => k))
  (at level 200, x name, c at level 100, k at level 200).

Definition variable : Fresh term := fun n => (Var n, S n).

(** A JS default parameter [x = DB.string()]: a fresh variable when the
    argument is omitted. *)
Definition or_fresh (t : option term) : Fresh term :=
  match t with Some t => fret t | None => variable end.

Fixpoint fmapM {A B} (f : A -> Fresh B) (l : list A) : Fresh (list B) :=
  match l with
  | [] => fret []
  | a :: l' => let* b := f a in let* bs := fmapM f l' in fret (b :: bs)
  end.

(* ------------------------------------------------------------------ *)
(** ** Domain matchers *)

(** Modelled from the spec ([agent/capability.js], "Capability match"): a
    capability entity with the given ability and resource. *)
Definition capability_match (capability can subject : term) : clause :=
  And (Match capability "capability/can" can)
      (Match capability "capability/with" subject).

(** Modelled from the spec ([agent/delegation.js], "delegation match"): a
    delegation with the given capability, audience and issuer, not expired
    at [time] (expiration >= time). *)
Definition delegation_match (delegation capability audience : term)
  (issuer : option term) (time : term) : Fresh clause :=
  let* issuer := or_fresh issuer in
  let* expiration := variable in
  fret (And (Match delegation "ucan/capability" capability)
       (And (Match delegation "ucan/audience" audience)
       (And (Match delegation "ucan/issuer" issuer)
       (And (Match delegation "ucan/expiration" expiration)
            (Gte expiration time))))).

(** Modelled from the spec ([Delegation.forwards]): a delegation match on a
    capability whose resource is ["ucan:*"]. *)
Definition forwards (delegation issuer audience can time : term)
  : Fresh clause :=
  let* capability := variable in
  let* m := delegation_match delegation capability audience (Some issuer) time in
  fret (And (capability_match capability can (Const (SStr "ucan:*"))) m).

(** Modelled from the spec ([Delegation.issuedBy], [Delegation.hasProof]). *)
Definition issuedBy (delegation issuer : term) : clause :=
  Match delegation "ucan/issuer" issuer.

Definition hasProof (delegation proof : term) : clause :=
  Match delegation "ucan/proof" proof.

(** Modelled from the spec ([agent/attestation.js], "attestation gating"):
    a [ucan/attest] delegation to [audience] whose [nb.proof] is [proof],
    not expired at [time]. *)
Definition attestation_match (attestation proof time audience : term)
  : Fresh clause :=
  let* capability := variable in
  let* m := delegation_match attestation capability audience None time in
  fret (And (And (Match capability "capability/can" (Const (SStr "ucan/attest")))
                 (Match capability "capability/nb/proof" proof))
            m).

(** [API.TextConstraint]: an exact string or a glob pattern. *)
Inductive text_constraint :=
| TExact (s : string)
| TGlob (g : string).

(** Modelled from the spec ([agent/db/text.js]). *)
Definition text_match (t : term) (c : text_constraint) : clause :=
  match c with
  | TExact s => Is t (Const (SStr s))
  | TGlob g => Glob t (Const (SStr g))
  end.

(** [explicit] (query.js, lines 116-136); parameters in the order of the
    JS destructuring, omitted ones default to fresh variables. *)
Definition explicit (delegation : term) (audience issuer subject can time
  : option term) : Fresh clause :=
  let* audience := or_fresh audience in
  let* issuer := or_fresh issuer in
  let* subject := or_fresh subject in
  let* can := or_fresh can in
  let* time := or_fresh time in
  let* capability := variable in
  let* m := delegation_match delegation capability audience (Some issuer) time in
  fret (And (capability_match capability can subject) m).

(** [implicit] (query.js, lines 154-184); [DB.or] of the single [explicit]
    clause is that clause. *)
Definition implicit (delegation : term) (subject can time audience issuer
  : option term) : Fresh clause :=
  let* subject := or_fresh subject in
  let* can := or_fresh can in
  let* time := or_fresh time in
  let* audience := or_fresh audience in
  let* issuer := or_fresh issuer in
  let* proof := variable in
  let* fw := forwards delegation issuer audience can time in
  let* ex := explicit proof (Some issuer) None (Some subject) (Some can) (Some time) in
  fret (And fw (Or (issuedBy delegation subject)
                   (And (hasProof delegation proof) ex))).

(** [match] (query.js, lines 199-212). *)
Definition match_ (delegation : term) (audience subject issuer can time
  : option term) : Fresh clause :=
  let* audience := or_fresh audience in
  let* subject := or_fresh subject in
  let* issuer := or_fresh issuer in
  let* can := or_fresh can in
  let* time := or_fresh time in
  let* e := explicit delegation (Some audience) (Some issuer) (Some subject)
                     (Some can) (Some time) in
  let* i := implicit delegation (Some subject) (Some can) (Some time)
                     (Some audience) (Some issuer) in
  fret (Or e i).

(* ------------------------------------------------------------------ *)
(** ** The query (query.js, lines 35-99) *)

Record proof_selector := mkProofSelector {
  ps_issuer : term;
  ps_can : term;
  ps_proof : term;
  ps_attestation : term;
  ps_need : option string
}.

(** The [can] mapping is given by its keys ([Object.keys(can)]). *)
Record selector := mkSelector {
  sel_audience : text_constraint;
  sel_can : list string;
  sel_subject : option text_constraint;
  sel_time : option Z
}.

Record query_t := mkQuery {
  q_proofs : list proof_selector;
  q_subject : term;
  q_audience : term;
  q_where : list clause
}.

Definition proof_group (need : option string) : Fresh proof_selector :=
  let* issuer := variable in
  let* can := variable in
  let* proof := variable in
  let* attestation := variable in
  fret (mkProofSelector issuer can proof attestation need).

Definition mailto_pattern : string := "did:mailto:*".

Definition group_clause (subject audience time : term) (ps : proof_selector)
  : Fresh clause :=
  let* clause := match_ (ps_proof ps) (Some audience) (Some subject)
                        (Some (ps_issuer ps)) (Some (ps_can ps)) (Some time) in
  let* am := attestation_match (ps_attestation ps) (ps_proof ps) time audience in
  let attestations :=
    Or (Not (Glob (ps_issuer ps) (Const (SStr mailto_pattern)))) am in
  fret (And (match ps_need ps with
             | Some need => And clause (Glob (Const (SStr need)) (ps_can ps))
             | None => clause
             end) attestations).

(** [now] stands for [Date.now() / 1000], the default of [selector.time]. *)
Definition query (now : Z) (sel : selector) : Fresh query_t :=
  let time := Const (SInt (match sel_time sel with Some t => t | None => now end)) in
  let* subject := variable in
  let* audience := variable in
  let needs := match sel_can sel with
               | [] => [None]
               | ks => map Some ks
               end in
  let* proofs := fmapM proof_group needs in
  let* where_ := fmapM (group_clause subject audience time) proofs in
  fret (mkQuery proofs subject audience
          (where_ ++ [text_match subject (match sel_subject sel with
                                          | Some c => c
                                          | None => TGlob "*"
                                          end);
                      text_match audience (sel_audience sel)])).

(** Modelled from the spec ([DB.query]): the bindings satisfying the
    [where] conjunction; variable ids start at 0 for each query. *)
Definition solutions (db : list delegation) (now : Z) (sel : selector)
  : list env :=
  eval_all (build_index db) (q_where (fst (query now sel 0))) [].

(* ------------------------------------------------------------------ *)
(** ** Authorizations *)

Record authorization := mkAuthorization {
  authority : string;
  subject : string;
  can : list string;
  auth_proofs : list string   (** cids of the cited delegations *)
}.

Definition str_of (o : option scalar) : option string :=
  match o with Some (SStr s) => Some s | _ => None end.

Definition link_of (o : option scalar) : option string :=
  match o with Some (SLink c) => Some c | _ => None end.

Definition option_list {A} (o : option A) : list A :=
  match o with Some a => [a] | None => [] end.

Definition add_uniq (l : list string) (x : string) : list string :=
  if existsb (String.eqb x) l then l else l ++ [x].

Definition union (l1 l2 : list string) : list string :=
  fold_left add_uniq l2 l1.

Fixpoint filter_map {A B} (f : A -> option B) (l : list A) : list B :=
  match l with
  | [] => []
  | a :: l' => match f a with
               | Some b => b :: filter_map f l'
               | None => filter_map f l'
               end
  end.

(** Modelled from the spec (section 4.6, projection of a binding): the
    authority is the bound audience, the abilities are the requested ones
    (the bound ability of a group without [need]), the proofs are each
    group's proof and, when bound, its attestation. *)
Definition binding_authorization (q : query_t) (e : env)
  : option authorization :=
  match str_of (resolve (q_audience q) e), str_of (resolve (q_subject q) e) with
  | Some aud, Some subj =>
      Some (mkAuthorization aud subj
              (union [] (flat_map (fun ps =>
                 match ps_need ps with
                 | Some n => [n]
                 | None => option_list (str_of (resolve (ps_can ps) e))
                 end) (q_proofs q)))
              (union [] (flat_map (fun ps =>
                 app (option_list (link_of (resolve (ps_proof ps) e)))
                     (option_list (link_of (resolve (ps_attestation ps) e))))
                 (q_proofs q))))
  | _, _ => None
  end.

Definition same_pair (a b : authorization) : bool :=
  String.eqb (authority a) (authority b) && String.eqb (subject a) (subject b).

Definition merge (r a : authorization) : authorization :=
  mkAuthorization (authority r) (subject r) (union (can r) (can a))
                  (union (auth_proofs r) (auth_proofs a)).

Fixpoint insert_auth (acc : list authorization) (a : authorization)
  : list authorization :=
  match acc with
  | [] => [a]
  | r :: acc' => if same_pair r a then merge r a :: acc'
                 else r :: insert_auth acc' a
  end.

(** Modelled from the spec (section 4.6, grouping): records sharing the
    (audience, subject) pair are merged, their abilities and proofs
    unioned. *)
Definition group (auths : list authorization) : list authorization :=
  fold_left insert_auth auths [].

(** Modelled from the spec ([Authorization.find]): run [query] and project
    its bindings into grouped authorization records. *)
Definition find (db : list delegation) (now : Z) (sel : selector)
  : list authorization :=
  let q := fst (query now sel 0) in
  group (filter_map (binding_authorization q) (solutions db now sel)).

(* ================================================================== *)
(** * Evaluator lemmas *)

Definition extends (e e' : env) : Prop :=
  forall n v, lookup_env n e = Some v -> lookup_env n e' = Some v.

Lemma extends_refl (e : env) : extends e e.
Proof. intros n v H; exact H. Qed.

Lemma extends_trans (e1 e2 e3 : env) :
  extends e1 e2 -> extends e2 e3 -> extends e1 e3.
Proof. intros H1 H2 n v H; auto. Qed.

Lemma resolve_extends (e e' : env) (t : term) (v : scalar) :
  extends e e' -> resolve t e = Some v -> resolve t e' = Some v.
Proof. destruct t; simpl; auto. Qed.

Lemma scalar_eqb_true (a b : scalar) : scalar_eqb a b = true <-> a = b.
Proof. unfold scalar_eqb; destruct (scalar_eq_dec a b); split; congruence. Qed.

Lemma scalar_eqb_refl (a : scalar) : scalar_eqb a a = true.
Proof. apply scalar_eqb_true; reflexivity. Qed.

Lemma unify_sound (t : term) (v : scalar) (e e' : env) :
  unify t v e = Some e' -> extends e e' /\ resolve t e' = Some v.
Proof.
  destruct t as [n | c]; simpl.
  - destruct (lookup_env n e) as [v' |] eqn:Hl.
    + destruct (scalar_eqb v' v) eqn:Hb; intros H; inversion H; subst.
      apply scalar_eqb_true in Hb; subst. split; [apply extends_refl | exact Hl].
    + intros H; inversion H; subst; split.
      * intros m w Hm; simpl. destruct (Nat.eqb m n) eqn:E; [|exact Hm].
        apply Nat.eqb_eq in E; subst; congruence.
      * simpl; rewrite Nat.eqb_refl; reflexivity.
  - destruct (scalar_eqb c v) eqn:Hb; intros H; inversion H; subst.
    apply scalar_eqb_true in Hb; subst; split; [apply extends_refl | reflexivity].
Qed.

Section Eval.
Variable F : list fact.

Lemma in_eval_match (t : term) (a : string) (u : term) (e e2 : env) :
  In e2 (eval F (Match t a u) e) <->
  exists fe fv e1, In (fe, a, fv) F /\ unify t fe e = Some e1 /\
                   unify u fv e1 = Some e2.
Proof.
  simpl; rewrite in_flat_map; split.
  - intros [[[fe fa] fv] [Hin Hx]].
    destruct (String.eqb fa a) eqn:Ea; [|contradiction].
    apply String.eqb_eq in Ea; subst.
    destruct (unify t fe e) as [e1|] eqn:U1; [|contradiction].
    destruct (unify u fv e1) as [e2'|] eqn:U2; [|contradiction].
    destruct Hx as [<- | []]. exists fe, fv, e1; auto.
  - intros (fe & fv & e1 & Hin & U1 & U2).
    exists (fe, a, fv); split; [exact Hin|].
    rewrite String.eqb_refl, U1, U2; left; reflexivity.
Qed.

Lemma in_eval_and (x y : clause) (e e2 : env) :
  In e2 (eval F (And x y) e) <->
  exists e1, In e1 (eval F x e) /\ In e2 (eval F y e1).
Proof.
  simpl; rewrite in_flat_map; split; intros (e1 & H1 & H2); eauto.
Qed.

Lemma in_eval_or (x y : clause) (e e2 : env) :
  In e2 (eval F (Or x y) e) <-> In e2 (eval F x e) \/ In e2 (eval F y e).
Proof. simpl; apply in_app_iff. Qed.

Lemma in_eval_not (x : clause) (e e2 : env) :
  In e2 (eval F (Not x) e) <-> e2 = e /\ eval F x e = [].
Proof.
  simpl; destruct (eval F x e); split.
  - intros [<- | []]; auto.
  - intros [-> _]; left; reflexivity.
  - intros [].
  - intros [_ H]; discriminate.
Qed.

Lemma in_eval_glob (t p : term) (e e2 : env) :
  In e2 (eval F (Glob t p) e) <->
  e2 = e /\ exists s pat, resolve t e = Some (SStr s) /\
                          resolve p e = Some (SStr pat) /\ glob pat s = true.
Proof.
  simpl; split.
  - destruct (resolve t e) as [[s| | | |]|]; try contradiction;
    destruct (resolve p e) as [[pat| | | |]|]; try contradiction.
    destruct (glob pat s) eqn:G; [|contradiction].
    intros [<- | []]; eauto 7.
  - intros (-> & s & pat & -> & -> & ->); left; reflexivity.
Qed.

Lemma in_eval_is (t u : term) (e e2 : env) :
  In e2 (eval F (Is t u) e) <->
  exists v, resolve u e = Some v /\ unify t v e = Some e2.
Proof.
  simpl; split.
  - destruct (resolve u e) as [v|]; [|contradiction].
    destruct (unify t v e) as [e'|] eqn:U; [|contradiction].
    intros [<- | []]; eauto.
  - intros (v & -> & ->); left; reflexivity.
Qed.

Lemma in_eval_gte (t u : term) (e e2 : env) :
  In e2 (eval F (Gte t u) e) <->
  e2 = e /\ exists a b, resolve t e = Some a /\ resolve u e = Some b /\
                        scalar_ge a b = true.
Proof.
  simpl; split.
  - destruct (resolve t e) as [a|]; [|contradiction].
    destruct (resolve u e) as [b|]; [|contradiction].
    destruct (scalar_ge a b) eqn:G; [|contradiction].
    intros [<- | []]; eauto 7.
  - intros (-> & a & b & -> & -> & ->); left; reflexivity.
Qed.

Lemma eval_extends (c : clause) : forall (e0 e' : env),
  In e' (eval F c e0) -> extends e0 e'.
Proof.
  induction c as [t a u | x IHx y IHy | x IHx y IHy | x IHx | t p | t u | t u];
    intros e0 e' H.
  - apply in_eval_match in H as (fe & fv & e1 & _ & U1 & U2).
    apply unify_sound in U1 as [X1 _]; apply unify_sound in U2 as [X2 _].
    eapply extends_trans; eauto.
  - apply in_eval_and in H as (e1 & H1 & H2).
    eapply extends_trans; [apply IHx | apply IHy]; eauto.
  - apply in_eval_or in H as [H | H]; eauto.
  - apply in_eval_not in H as [-> _]; apply extends_refl.
  - apply in_eval_glob in H as [-> _]; apply extends_refl.
  - apply in_eval_is in H as (v & _ & U); apply unify_sound in U as [X _]; exact X.
  - apply in_eval_gte in H as [-> _]; apply extends_refl.
Qed.

Lemma eval_all_extends (cs : list clause) : forall (e e' : env),
  In e' (eval_all F cs e) -> extends e e'.
Proof.
  induction cs as [|c cs IH]; simpl; intros e e' H.
  - destruct H as [<- | []]; apply extends_refl.
  - apply in_flat_map in H as (e1 & H1 & H2).
    eapply extends_trans; [eapply eval_extends | eapply IH]; eauto.
Qed.

(** Every clause of a satisfied conjunction has a solution that the final
    binding extends. *)
Lemma eval_all_each (cs : list clause) : forall (e e' : env),
  In e' (eval_all F cs e) ->
  forall c, In c cs -> exists e1 e2, In e2 (eval F c e1) /\ extends e2 e'.
Proof.
  induction cs as [|c0 cs IH]; simpl; intros e e' H c Hc; [contradiction|].
  apply in_flat_map in H as (e1 & H1 & H2).
  destruct Hc as [<- | Hc].
  - exists e, e1; split; [exact H1 | eapply eval_all_extends; eauto].
  - eapply IH; eauto.
Qed.

Lemma eval_all_cons_intro (c : clause) (cs : list clause) (e e1 e2 : env) :
  In e1 (eval F c e) -> In e2 (eval_all F cs e1) ->
  In e2 (eval_all F (c :: cs) e).
Proof. intros H1 H2; simpl; apply in_flat_map; eauto. Qed.

Lemma eval_all_nil_intro (e : env) : In e (eval_all F [] e).
Proof. left; reflexivity. Qed.

End Eval.

(* ------------------------------------------------------------------ *)
(** ** Glob facts *)

Lemma glob_refl (s : string) : glob s s = true.
Proof.
  induction s as [|c s IH]; simpl; [reflexivity|].
  destruct (Ascii.eqb c "*"%char) eqn:E.
  - apply Ascii.eqb_eq in E; subst.
    apply orb_true_iff; right.
    destruct s as [|a s']; [reflexivity|].
    apply orb_true_iff; left; exact IH.
  - rewrite Ascii.eqb_refl, IH; reflexivity.
Qed.

Lemma glob_star (s : string) : glob "*" s = true.
Proof. induction s as [|a s IH]; [reflexivity|]. exact IH. Qed.

(* ------------------------------------------------------------------ *)
(** ** Facts of a delegation set *)

Definition cap_facts (c : string) (i : nat) (k : capability) : list fact :=
  [(SCap c i, "capability/can", SStr (cap_can k));
   (SCap c i, "capability/with", SStr (cap_with k))]
  ++ map (fun fv => (SCap c i, String.append "capability/nb/" (fst fv), snd fv))
         (cap_nb k)
  ++ [(SLink c, "ucan/capability", SCap c i)].

Lemma capability_facts_cons (c : string) (j : nat) (k : capability)
  (caps : list capability) :
  capability_facts c j (k :: caps) = cap_facts c j k ++ capability_facts c (S j) caps.
Proof. unfold cap_facts; simpl; rewrite <- !app_assoc; reflexivity. Qed.

Lemma in_capability_facts (c : string) (caps : list capability) :
  forall (j : nat) (f : fact),
  In f (capability_facts c j caps) <->
  exists i k, nth_error caps i = Some k /\ In f (cap_facts c (j + i) k).
Proof.
  induction caps as [|k caps IH]; intros j f.
  - simpl; split; [contradiction|]. intros (i & k & H & _); destruct i; discriminate.
  - rewrite capability_facts_cons, in_app_iff, IH. split.
    + intros [H | (i & k' & Hn & H)].
      * exists 0, k; rewrite Nat.add_0_r; auto.
      * exists (S i), k'; rewrite <- Nat.add_succ_comm; auto.
    + intros ([|i] & k' & Hn & H); simpl in Hn.
      * inversion Hn; subst; left. rewrite Nat.add_0_r in H; exact H.
      * right; exists i, k'; rewrite Nat.add_succ_comm; auto.
Qed.

Lemma in_build_index (db : list delegation) (f : fact) :
  In f (build_index db) <-> exists d, In d db /\ In f (delegation_facts d).
Proof. unfold build_index; rewrite in_flat_map; reflexivity. Qed.

Lemma index_fact_cases (db : list delegation) (fe : scalar) (a : string)
  (fv : scalar) :
  In (fe, a, fv) (build_index db) ->
  exists d, In d db /\
  ((fe = SLink (cid d) /\ a = "ucan/issuer" /\ fv = SStr (issuer d))
   \/ (fe = SLink (cid d) /\ a = "ucan/audience" /\ fv = SStr (audience d))
   \/ (fe = SLink (cid d) /\ a = "ucan/expiration" /\ fv = expiration_scalar d)
   \/ (exists p, In p (proofs d) /\ fe = SLink (cid d) /\ a = "ucan/proof" /\
                 fv = SLink p)
   \/ (exists i k, nth_error (capabilities d) i = Some k /\
       ((fe = SCap (cid d) i /\ a = "capability/can" /\ fv = SStr (cap_can k))
        \/ (fe = SCap (cid d) i /\ a = "capability/with" /\
            fv = SStr (cap_with k))
        \/ (exists f, In (f, fv) (cap_nb k) /\ fe = SCap (cid d) i /\
                      a = String.append "capability/nb/" f)
        \/ (fe = SLink (cid d) /\ a = "ucan/capability" /\
            fv = SCap (cid d) i)))).
Proof.
  intros H; apply in_build_index in H as (d & Hd & H); exists d; split; [exact Hd|].
  unfold delegation_facts in H; simpl in H.
  destruct H as [H | [H | [H | H]]];
    try (inversion H; subst; tauto).
  apply in_app_iff in H as [H | H].
  - apply in_capability_facts in H as (i & k & Hn & H); simpl in H.
    right; right; right; right; exists i, k; split; [exact Hn|].
    unfold cap_facts in H; simpl in H.
    destruct H as [H | [H | H]]; [inversion H; subst; tauto | inversion H; subst; tauto|].
    apply in_app_iff in H as [H | [H | []]].
    + apply in_map_iff in H as ([f v] & Hf & Hin); simpl in Hf; inversion Hf; subst.
      right; right; left; eauto.
    + inversion H; subst; tauto.
  - apply in_map_iff in H as (p & Hp & Hin); inversion Hp; subst.
    right; right; right; left; eauto.
Qed.

Ltac attr_absurd :=
  match goal with
  | H : _ = _ |- _ => solve [discriminate H]
  | H : String.append _ _ = _ |- _ => solve [simpl in H; discriminate H]
  end.

Lemma fact_issuer (db : list delegation) (fe fv : scalar) :
  In (fe, "ucan/issuer", fv) (build_index db) ->
  exists d, In d db /\ fe = SLink (cid d) /\ fv = SStr (issuer d).
Proof.
  intros H; apply index_fact_cases in H as (d & Hd & H); exists d; split; [exact Hd|].
  decompose [or and ex] H; subst; auto; attr_absurd.
Qed.

Lemma fact_audience (db : list delegation) (fe fv : scalar) :
  In (fe, "ucan/audience", fv) (build_index db) ->
  exists d, In d db /\ fe = SLink (cid d) /\ fv = SStr (audience d).
Proof.
  intros H; apply index_fact_cases in H as (d & Hd & H); exists d; split; [exact Hd|].
  decompose [or and ex] H; subst; auto; attr_absurd.
Qed.

Lemma fact_expiration (db : list delegation) (fe fv : scalar) :
  In (fe, "ucan/expiration", fv) (build_index db) ->
  exists d, In d db /\ fe = SLink (cid d) /\ fv = expiration_scalar d.
Proof.
  intros H; apply index_fact_cases in H as (d & Hd & H); exists d; split; [exact Hd|].
  decompose [or and ex] H; subst; auto; attr_absurd.
Qed.

Lemma fact_proof (db : list delegation) (fe fv : scalar) :
  In (fe, "ucan/proof", fv) (build_index db) ->
  exists d p, In d db /\ In p (proofs d) /\ fe = SLink (cid d) /\ fv = SLink p.
Proof.
  intros H; apply index_fact_cases in H as (d & Hd & H).
  decompose [or and ex] H; subst; eauto 7; attr_absurd.
Qed.

Lemma fact_capability (db : list delegation) (fe fv : scalar) :
  In (fe, "ucan/capability", fv) (build_index db) ->
  exists d i k, In d db /\ nth_error (capabilities d) i = Some k /\
                fe = SLink (cid d) /\ fv = SCap (cid d) i.
Proof.
  intros H; apply index_fact_cases in H as (d & Hd & H).
  decompose [or and ex] H; subst; eauto 8; attr_absurd.
Qed.

Lemma fact_can (db : list delegation) (fe fv : scalar) :
  In (fe, "capability/can", fv) (build_index db) ->
  exists d i k, In d db /\ nth_error (capabilities d) i = Some k /\
                fe = SCap (cid d) i /\ fv = SStr (cap_can k).
Proof.
  intros H; apply index_fact_cases in H as (d & Hd & H).
  decompose [or and ex] H; subst; eauto 8; attr_absurd.
Qed.

Lemma fact_with (db : list delegation) (fe fv : scalar) :
  In (fe, "capability/with", fv) (build_index db) ->
  exists d i k, In d db /\ nth_error (capabilities d) i = Some k /\
                fe = SCap (cid d) i /\ fv = SStr (cap_with k).
Proof.
  intros H; apply index_fact_cases in H as (d & Hd & H).
  decompose [or and ex] H; subst; eauto 8; attr_absurd.
Qed.

Lemma fact_nb_proof (db : list delegation) (fe fv : scalar) :
  In (fe, "capability/nb/proof", fv) (build_index db) ->
  exists d i k, In d db /\ nth_error (capabilities d) i = Some k /\
                fe = SCap (cid d) i /\ In ("proof", fv) (cap_nb k).
Proof.
  intros H; apply index_fact_cases in H as (d & Hd & H).
  decompose [or and ex] H; subst; try attr_absurd.
  match goal with
  | Hs : "capability/nb/proof" = String.append "capability/nb/" ?f,
    Hi : In (?f, fv) (cap_nb ?k), Hn : nth_error _ ?i = Some ?k |- _ =>
      assert (f = "proof") as -> by
        (simpl in Hs; repeat (injection Hs as Hs); symmetry; exact Hs);
      exists d, i, k; auto
  end.
Qed.

Lemma in_delegation_facts (db : list delegation) (d : delegation) (f : fact) :
  In d db -> In f (delegation_facts d) -> In f (build_index db).
Proof. intros Hd Hf; apply in_build_index; eauto. Qed.

Lemma fact_issuer_intro (db : list delegation) (d : delegation) :
  In d db -> In (SLink (cid d), "ucan/issuer", SStr (issuer d)) (build_index db).
Proof. intros Hd; eapply in_delegation_facts; [exact Hd | left; reflexivity]. Qed.

Lemma fact_audience_intro (db : list delegation) (d : delegation) :
  In d db -> In (SLink (cid d), "ucan/audience", SStr (audience d)) (build_index db).
Proof. intros Hd; eapply in_delegation_facts; [exact Hd | right; left; reflexivity]. Qed.

Lemma fact_expiration_intro (db : list delegation) (d : delegation) :
  In d db ->
  In (SLink (cid d), "ucan/expiration", expiration_scalar d) (build_index db).
Proof. intros Hd; eapply in_delegation_facts; [exact Hd | right; right; left; reflexivity]. Qed.

Lemma fact_proof_intro (db : list delegation) (d : delegation) (p : string) :
  In d db -> In p (proofs d) ->
  In (SLink (cid d), "ucan/proof", SLink p) (build_index db).
Proof.
  intros Hd Hp; eapply in_delegation_facts; [exact Hd|].
  unfold delegation_facts; apply in_app_iff; right.
  apply in_app_iff; right; apply in_map_iff; eauto.
Qed.

Lemma fact_cap_intro (db : list delegation) (d : delegation) (i : nat)
  (k : capability) (f : fact) :
  In d db -> nth_error (capabilities d) i = Some k -> In f (cap_facts (cid d) i k) ->
  In f (build_index db).
Proof.
  intros Hd Hn Hf; eapply in_delegation_facts; [exact Hd|].
  unfold delegation_facts; apply in_app_iff; right.
  apply in_app_iff; left; apply in_capability_facts; exists i, k; auto.
Qed.

Lemma cap_facts_can (c : string) (i : nat) (k : capability) :
  In (SCap c i, "capability/can", SStr (cap_can k)) (cap_facts c i k).
Proof. left; reflexivity. Qed.

Lemma cap_facts_with (c : string) (i : nat) (k : capability) :
  In (SCap c i, "capability/with", SStr (cap_with k)) (cap_facts c i k).
Proof. right; left; reflexivity. Qed.

Lemma cap_facts_capability (c : string) (i : nat) (k : capability) :
  In (SLink c, "ucan/capability", SCap c i) (cap_facts c i k).
Proof. unfold cap_facts; simpl; right; right; apply in_app_iff; right; left; reflexivity. Qed.

Lemma cap_facts_nb (c : string) (i : nat) (k : capability) (f : string) (v : scalar) :
  In (f, v) (cap_nb k) ->
  In (SCap c i, String.append "capability/nb/" f, v) (cap_facts c i k).
Proof.
  intros H; unfold cap_facts; simpl; right; right; apply in_app_iff; left.
  apply in_map_iff; exists (f, v); auto.
Qed.

(** Delegations are content addressed: distinct delegations of a set have
    distinct cids. *)
Definition wf_db (db : list delegation) : Prop :=
  Stdlib.Lists.List.NoDup (map cid db).

Lemma wf_cid (db : list delegation) (d1 d2 : delegation) :
  wf_db db -> In d1 db -> In d2 db -> cid d1 = cid d2 -> d1 = d2.
Proof.
  unfold wf_db; induction db as [|d db IH]; simpl; [contradiction|].
  intros Hnd H1 H2 Hc; inversion Hnd as [|? ? Hnot Hnd']; subst.
  destruct H1 as [<- | H1], H2 as [<- | H2]; auto.
  - exfalso; apply Hnot; rewrite Hc; apply in_map; exact H2.
  - exfalso; apply Hnot; rewrite <- Hc; apply in_map; exact H1.
Qed.

(** [expiration >= time] on a delegation. *)
Definition unexpired (t : Z) (d : delegation) : bool :=
  match expiration d with Some x => Z.leb t x | None => true end.

Lemma scalar_ge_expiration (d : delegation) (t : Z) :
  scalar_ge (expiration_scalar d) (SInt t) = unexpired t d.
Proof. unfold expiration_scalar, unexpired; destruct (expiration d); reflexivity. Qed.

(* ------------------------------------------------------------------ *)
(** ** Decomposing solutions *)

Lemma in_eval_match_sound (F : list fact) (t : term) (a : string) (u : term)
  (e e2 : env) :
  In e2 (eval F (Match t a u) e) ->
  exists fe fv, In (fe, a, fv) F /\ resolve t e2 = Some fe /\
                resolve u e2 = Some fv /\ extends e e2.
Proof.
  intros H; apply in_eval_match in H as (fe & fv & e1 & Hf & U1 & U2).
  apply unify_sound in U1 as [X1 R1]; apply unify_sound in U2 as [X2 R2].
  exists fe, fv; repeat split; auto.
  - eapply resolve_extends; eauto.
  - eapply extends_trans; eauto.
Qed.

Ltac dstep :=
  match goal with
  | H : In ?e2 (eval ?F (And ?x ?y) ?e) |- _ =>
      let e1 := fresh "e" in let H1 := fresh "H" in let H2 := fresh "H" in
      apply in_eval_and in H as (e1 & H1 & H2);
      pose proof (eval_extends F y e1 e2 H2)
  | H : In ?e2 (eval ?F (Match ?t ?a ?u) ?e) |- _ =>
      apply in_eval_match_sound in H as (? & ? & ? & ? & ? & ?)
  | H : In ?e2 (eval ?F (Gte ?t ?u) ?e) |- _ =>
      apply in_eval_gte in H as (-> & ? & ? & ? & ? & ?)
  | H : In ?e2 (eval ?F (Glob ?t ?u) ?e) |- _ =>
      apply in_eval_glob in H as (-> & ? & ? & ? & ? & ?)
  end.

Ltac saturate :=
  repeat match goal with
  | H : resolve ?t ?ea = Some ?v, X : extends ?ea ?eb |- _ =>
      lazymatch goal with
      | _ : resolve t eb = Some v |- _ => fail
      | _ => pose proof (resolve_extends ea eb t v X H)
      end
  end.

Ltac dfacts :=
  repeat match goal with
  | H : In (_, "ucan/issuer", _) (build_index _) |- _ =>
      apply fact_issuer in H as (? & ? & ? & ?)
  | H : In (_, "ucan/audience", _) (build_index _) |- _ =>
      apply fact_audience in H as (? & ? & ? & ?)
  | H : In (_, "ucan/expiration", _) (build_index _) |- _ =>
      apply fact_expiration in H as (? & ? & ? & ?)
  | H : In (_, "ucan/proof", _) (build_index _) |- _ =>
      apply fact_proof in H as (? & ? & ? & ? & ? & ?)
  | H : In (_, "ucan/capability", _) (build_index _) |- _ =>
      apply fact_capability in H as (? & ? & ? & ? & ? & ? & ?)
  | H : In (_, "capability/can", _) (build_index _) |- _ =>
      apply fact_can in H as (? & ? & ? & ? & ? & ? & ?)
  | H : In (_, "capability/with", _) (build_index _) |- _ =>
      apply fact_with in H as (? & ? & ? & ? & ? & ? & ?)
  | H : In (_, "capability/nb/proof", _) (build_index _) |- _ =>
      apply fact_nb_proof in H as (? & ? & ? & ? & ? & ? & ?)
  end; subst.

(** Identify the delegations and capabilities that two facts about the
    same entity come from. *)
Ltac unify_dels Hwf :=
  repeat match goal with
  | H1 : resolve ?t ?e = Some ?a, H2 : resolve ?t ?e = Some ?b |- _ =>
      lazymatch a with
      | b => fail
      | _ => rewrite H1 in H2; injection H2; clear H2; intros; subst
      end
  | H : resolve (Const ?v) ?e = Some ?x |- _ =>
      simpl in H; injection H; clear H; intros; subst
  | H : cid ?d1 = cid ?d2 |- _ =>
      let E := fresh in
      assert (E : d1 = d2) by (eapply wf_cid; [exact Hwf | assumption | assumption | exact H]);
      clear H; subst d2
  end;
  repeat match goal with
  | H : ?x = ?x |- _ => clear H
  | H : nth_error ?l ?i = Some ?k1, H' : nth_error ?l ?i = Some ?k2 |- _ =>
      rewrite H in H'; injection H' as H'; subst k2
  end.

(* ------------------------------------------------------------------ *)
(** ** Soundness of the matchers *)

Definition dm_clause (d cap aud iss exp time : term) : clause :=
  And (Match d "ucan/capability" cap)
  (And (Match d "ucan/audience" aud)
  (And (Match d "ucan/issuer" iss)
  (And (Match d "ucan/expiration" exp)
       (Gte exp time)))).

Lemma delegation_match_shape (d cap aud : term) (iss : option term) (time : term)
  (n : nat) :
  delegation_match d cap aud iss time n =
  (dm_clause d cap aud (match iss with Some i => i | None => Var n end)
             (Var (match iss with Some _ => n | None => S n end)) time,
   match iss with Some _ => S n | None => S (S n) end).
Proof. destruct iss; reflexivity. Qed.

Definition ex_clause (d cap aud iss exp subj can time : term) : clause :=
  And (capability_match cap can subj) (dm_clause d cap aud iss exp time).

Definition im_clause (d subj can time aud iss p cap1 exp1 iss2 cap2 exp2 : term)
  : clause :=
  And (And (capability_match cap1 can (Const (SStr "ucan:*")))
           (dm_clause d cap1 aud iss exp1 time))
      (Or (issuedBy d subj)
          (And (hasProof d p) (ex_clause p cap2 iss iss2 exp2 subj can time))).

Definition at_clause (att proof time aud cap iss exp : term) : clause :=
  And (And (Match cap "capability/can" (Const (SStr "ucan/attest")))
           (Match cap "capability/nb/proof" proof))
      (dm_clause att cap aud iss exp time).

Lemma explicit_shape (d a i s c t : term) (n : nat) :
  explicit d (Some a) (Some i) (Some s) (Some c) (Some t) n =
  (ex_clause d (Var n) a i (Var (1 + n)) s c t, 2 + n).
Proof. reflexivity. Qed.

Lemma implicit_shape (d s c t a i : term) (n : nat) :
  implicit d (Some s) (Some c) (Some t) (Some a) (Some i) n =
  (im_clause d s c t a i (Var n) (Var (1 + n)) (Var (2 + n)) (Var (3 + n))
             (Var (4 + n)) (Var (5 + n)), 6 + n).
Proof. reflexivity. Qed.

Lemma match_shape (d a s i c t : term) (n : nat) :
  match_ d (Some a) (Some s) (Some i) (Some c) (Some t) n =
  (Or (ex_clause d (Var n) a i (Var (1 + n)) s c t)
      (im_clause d s c t a i (Var (2 + n)) (Var (3 + n)) (Var (4 + n))
                 (Var (5 + n)) (Var (6 + n)) (Var (7 + n))), 8 + n).
Proof. reflexivity. Qed.

Lemma attestation_shape (att proof time aud : term) (n : nat) :
  attestation_match att proof time aud n =
  (at_clause att proof time aud (Var n) (Var (1 + n)) (Var (2 + n)), 3 + n).
Proof. reflexivity. Qed.

Definition need_clause (need : option string) (c : clause) (can : term) : clause :=
  match need with
  | Some nd => And c (Glob (Const (SStr nd)) can)
  | None => c
  end.

Lemma group_clause_shape (subj aud time : term) (ps : proof_selector) (n : nat) :
  group_clause subj aud time ps n =
  (And (need_clause (ps_need ps)
          (Or (ex_clause (ps_proof ps) (Var n) aud (ps_issuer ps) (Var (1 + n))
                         subj (ps_can ps) time)
              (im_clause (ps_proof ps) subj (ps_can ps) time aud (ps_issuer ps)
                 (Var (2 + n)) (Var (3 + n)) (Var (4 + n)) (Var (5 + n))
                 (Var (6 + n)) (Var (7 + n))))
          (ps_can ps))
       (Or (Not (Glob (ps_issuer ps) (Const (SStr mailto_pattern))))
           (at_clause (ps_attestation ps) (ps_proof ps) time aud
                      (Var (8 + n)) (Var (9 + n)) (Var (10 + n)))),
   11 + n).
Proof. unfold group_clause; destruct (ps_need ps); reflexivity. Qed.

Definition match_part (subj aud time : term) (ps : proof_selector) (n : nat)
  : clause :=
  need_clause (ps_need ps)
    (Or (ex_clause (ps_proof ps) (Var n) aud (ps_issuer ps) (Var (1 + n))
                   subj (ps_can ps) time)
        (im_clause (ps_proof ps) subj (ps_can ps) time aud (ps_issuer ps)
           (Var (2 + n)) (Var (3 + n)) (Var (4 + n)) (Var (5 + n))
           (Var (6 + n)) (Var (7 + n))))
    (ps_can ps).

Lemma group_clause_fst (subj aud time : term) (ps : proof_selector) (n : nat) :
  fst (group_clause subj aud time ps n) =
  And (match_part subj aud time ps n)
      (Or (Not (Glob (ps_issuer ps) (Const (SStr mailto_pattern))))
          (at_clause (ps_attestation ps) (ps_proof ps) time aud
                     (Var (8 + n)) (Var (9 + n)) (Var (10 + n)))).
Proof. rewrite group_clause_shape; reflexivity. Qed.

(** A delegation [a] attests [d] for [aud] at [t]: a [ucan/attest]
    capability naming [d] in [nb.proof], delegated to [aud], unexpired. *)
Definition attests (a d : delegation) (aud : string) (t : Z) : Prop :=
  audience a = aud /\ unexpired t a = true /\
  exists k, In k (capabilities a) /\ cap_can k = "ucan/attest" /\
            In ("proof", SLink (cid d)) (cap_nb k).

Definition is_mailto (did : string) : bool := glob mailto_pattern did.

Section Sound.
Variable db : list delegation.
Hypothesis Hwf : wf_db db.
Let F := build_index db.

Lemma dm_sound (e e' : env) (d cap aud iss exp : term) (t : Z) :
  In e' (eval F (dm_clause d cap aud iss exp (Const (SInt t))) e) ->
  exists dd i k, In dd db /\ nth_error (capabilities dd) i = Some k /\
    resolve d e' = Some (SLink (cid dd)) /\
    resolve cap e' = Some (SCap (cid dd) i) /\
    resolve aud e' = Some (SStr (audience dd)) /\
    resolve iss e' = Some (SStr (issuer dd)) /\
    unexpired t dd = true.
Proof.
  unfold dm_clause, F; intros H.
  repeat dstep; dfacts; saturate; unify_dels Hwf.
  rewrite scalar_ge_expiration in *.
  eexists _, _, _; repeat split; eauto.
Qed.

Ltac pick_del d cap e' :=
  match goal with
  | R : resolve d e' = Some (SLink (cid ?D)),
    Rc : resolve cap e' = Some (SCap (cid ?D) ?i),
    Hn : nth_error (capabilities ?D) ?i = Some ?K |- _ => exists D, K
  end.

Lemma ex_sound (e e' : env) (d cap aud iss exp subj can : term) (t : Z) :
  In e' (eval F (ex_clause d cap aud iss exp subj can (Const (SInt t))) e) ->
  exists dd k, In dd db /\ In k (capabilities dd) /\
    resolve d e' = Some (SLink (cid dd)) /\
    resolve aud e' = Some (SStr (audience dd)) /\
    resolve iss e' = Some (SStr (issuer dd)) /\
    unexpired t dd = true /\
    resolve can e' = Some (SStr (cap_can k)) /\
    resolve subj e' = Some (SStr (cap_with k)).
Proof.
  unfold ex_clause, capability_match; intros H.
  apply in_eval_and in H as (e1 & H1 & H2).
  pose proof (eval_extends F _ _ _ H2) as X.
  apply dm_sound in H2 as (dd & i & k & Hd & Hn & R1 & R2 & R3 & R4 & U).
  unfold F in *; repeat dstep; dfacts; saturate; unify_dels Hwf.
  do 2 eexists; repeat split; eauto using nth_error_In.
Qed.

Lemma im_sound (e e' : env) (d subj can aud iss p cap1 exp1 iss2 cap2 exp2 : term)
  (t : Z) :
  In e' (eval F (im_clause d subj can (Const (SInt t)) aud iss p cap1 exp1 iss2
                           cap2 exp2) e) ->
  exists dd k, In dd db /\ In k (capabilities dd) /\ cap_with k = "ucan:*" /\
    resolve d e' = Some (SLink (cid dd)) /\
    resolve aud e' = Some (SStr (audience dd)) /\
    resolve iss e' = Some (SStr (issuer dd)) /\
    unexpired t dd = true /\
    resolve can e' = Some (SStr (cap_can k)) /\
    (resolve subj e' = Some (SStr (issuer dd)) \/
     exists pd kp, In (cid pd) (proofs dd) /\ In pd db /\
       In kp (capabilities pd) /\ audience pd = issuer dd /\
       cap_can kp = cap_can k /\ unexpired t pd = true /\
       resolve subj e' = Some (SStr (cap_with kp))).
Proof.
  unfold im_clause; intros H.
  apply in_eval_and in H as (e1 & H1 & H2).
  pose proof (eval_extends F _ _ _ H2) as X.
  apply in_eval_and in H1 as (e0 & H0 & H1).
  pose proof (eval_extends F _ _ _ H1) as X0.
  apply dm_sound in H1 as (dd & i & k & Hd & Hn & R1 & R2 & R3 & R4 & U).
  unfold capability_match in H0; unfold F in *; repeat dstep.
  apply in_eval_or in H2 as [H2 | H2].
  - unfold issuedBy in H2; repeat dstep; dfacts; saturate; unify_dels Hwf.
    pick_del d cap1 e'; repeat split; eauto using nth_error_In; congruence.
  - apply in_eval_and in H2 as (ep & Hp1 & Hp2).
    pose proof (eval_extends F _ _ _ Hp2) as X2.
    apply ex_sound in Hp2 as (pd & kp & Hpd & Hkp & Q1 & Q2 & Q3 & Q4 & Q5 & Q6).
    unfold hasProof, F in *; repeat dstep; dfacts; saturate; unify_dels Hwf.
    pick_del d cap1 e'; repeat split; eauto using nth_error_In; try congruence.
    right; exists pd, kp; repeat split; auto; congruence.
Qed.

Lemma at_sound (e e' : env) (att proof aud cap iss exp : term) (t : Z) :
  In e' (eval F (at_clause att proof (Const (SInt t)) aud cap iss exp) e) ->
  exists a k pv, In a db /\ In k (capabilities a) /\
    resolve att e' = Some (SLink (cid a)) /\
    resolve aud e' = Some (SStr (audience a)) /\
    unexpired t a = true /\ cap_can k = "ucan/attest" /\
    resolve proof e' = Some pv /\ In ("proof", pv) (cap_nb k).
Proof.
  unfold at_clause; intros H.
  apply in_eval_and in H as (e1 & H1 & H2).
  pose proof (eval_extends F _ _ _ H2) as X.
  apply dm_sound in H2 as (a & i & k & Hd & Hn & R1 & R2 & R3 & R4 & U).
  unfold F in *; repeat dstep; dfacts; saturate; unify_dels Hwf.
  eexists _, _, _; repeat split; eauto using nth_error_In.
Qed.

End Sound.

(* ------------------------------------------------------------------ *)
(** ** Variables of clauses *)

Definition term_vars (t : term) : list nat :=
  match t with Var n => [n] | Const _ => [] end.

Fixpoint clause_vars (c : clause) : list nat :=
  match c with
  | Match t _ u => term_vars t ++ term_vars u
  | And x y | Or x y => clause_vars x ++ clause_vars y
  | Not x => clause_vars x
  | Glob t u | Is t u | Gte t u => term_vars t ++ term_vars u
  end.

Lemma unify_unbound (t : term) (v : scalar) (e e' : env) (n : nat) :
  unify t v e = Some e' -> lookup_env n e = None -> ~ In n (term_vars t) ->
  lookup_env n e' = None.
Proof.
  destruct t as [m | c]; simpl.
  - destruct (lookup_env m e); [destruct (scalar_eqb s v)|]; intros H; inversion H; subst;
      intros Hn Hnot; simpl; auto.
    destruct (Nat.eqb n m) eqn:E; [|exact Hn].
    apply Nat.eqb_eq in E; subst; exfalso; apply Hnot; left; reflexivity.
  - destruct (scalar_eqb c v); intros H; inversion H; subst; auto.
Qed.

Lemma eval_unbound (F : list fact) (c : clause) : forall (e e' : env) (n : nat),
  In e' (eval F c e) -> lookup_env n e = None -> ~ In n (clause_vars c) ->
  lookup_env n e' = None.
Proof.
  induction c as [t a u | x IHx y IHy | x IHx y IHy | x IHx | t p | t u | t u];
    intros e0 e' n H Hn Hv; simpl in Hv; rewrite ?in_app_iff in Hv.
  - apply in_eval_match in H as (fe & fv & e1 & _ & U1 & U2).
    eapply unify_unbound; [exact U2 | eapply unify_unbound; [exact U1 | exact Hn |] |]; tauto.
  - apply in_eval_and in H as (e1 & H1 & H2).
    eapply IHy; [exact H2 | eapply IHx; [exact H1 | exact Hn | tauto] | tauto].
  - apply in_eval_or in H as [H | H]; [eapply IHx | eapply IHy]; eauto.
  - apply in_eval_not in H as [-> _]; exact Hn.
  - apply in_eval_glob in H as [-> _]; exact Hn.
  - apply in_eval_is in H as (v & _ & U); eapply unify_unbound; eauto; tauto.
  - apply in_eval_gte in H as [-> _]; exact Hn.
Qed.

Lemma eval_all_unbound (F : list fact) (cs : list clause) : forall (e e' : env) (n : nat),
  In e' (eval_all F cs e) -> lookup_env n e = None ->
  (forall c, In c cs -> ~ In n (clause_vars c)) ->
  lookup_env n e' = None.
Proof.
  induction cs as [|c cs IH]; simpl; intros e e' n H Hn Hv.
  - destruct H as [<- | []]; exact Hn.
  - apply in_flat_map in H as (e1 & H1 & H2).
    eapply IH; [exact H2 | eapply eval_unbound; [exact H1 | exact Hn | apply Hv; auto] |].
    intros c' Hc'; apply Hv; auto.
Qed.

Lemma eval_all_app (F : list fact) (cs1 cs2 : list clause) : forall (e e' : env),
  In e' (eval_all F (cs1 ++ cs2) e) <->
  exists e1, In e1 (eval_all F cs1 e) /\ In e' (eval_all F cs2 e1).
Proof.
  induction cs1 as [|c cs1 IH]; simpl; intros e e'.
  - split; [intros H; exists e; auto | intros (e1 & [<- | []] & H); exact H].
  - rewrite in_flat_map; split.
    + intros (e1 & H1 & H2); apply IH in H2 as (e2 & H2 & H3).
      exists e2; split; [apply in_flat_map; eauto | exact H3].
    + intros (e2 & H2 & H3); apply in_flat_map in H2 as (e1 & H1 & H2).
      exists e1; split; [exact H1 | apply IH; eauto].
Qed.

(* ------------------------------------------------------------------ *)
(** ** The groups of a query *)

Fixpoint proof_groups (needs : list (option string)) (n : nat) : list proof_selector :=
  match needs with
  | [] => []
  | nd :: needs' =>
      mkProofSelector (Var n) (Var (1 + n)) (Var (2 + n)) (Var (3 + n)) nd
        :: proof_groups needs' (4 + n)
  end.

Lemma fmapM_proof_group (needs : list (option string)) : forall (n : nat),
  fmapM proof_group needs n = (proof_groups needs n, 4 * length needs + n).
Proof.
  induction needs as [|nd needs IH]; intros n; [reflexivity|].
  simpl fmapM; unfold fbind at 1; simpl. unfold fbind; rewrite IH.
  simpl; f_equal; lia.
Qed.

Fixpoint group_clauses (subj aud time : term) (ps : list proof_selector) (n : nat)
  : list clause :=
  match ps with
  | [] => []
  | p :: ps' => fst (group_clause subj aud time p n)
                  :: group_clauses subj aud time ps' (11 + n)
  end.

Lemma fmapM_group_clause (subj aud time : term) (ps : list proof_selector) :
  forall (n : nat),
  fmapM (group_clause subj aud time) ps n =
  (group_clauses subj aud time ps n, 11 * length ps + n).
Proof.
  induction ps as [|p ps IH]; intros n; [reflexivity|].
  cbn [fmapM]; unfold fbind.
  pose proof (group_clause_shape subj aud time p n) as E.
  destruct (group_clause subj aud time p n) as [c n'] eqn:Eg.
  injection E as Ec En; subst n'.
  rewrite IH; unfold fret; cbn [group_clauses]; rewrite Eg; simpl fst.
  f_equal; simpl length; lia.
Qed.

Definition query_time (now : Z) (sel : selector) : Z :=
  match sel_time sel with Some t => t | None => now end.

Definition query_needs (sel : selector) : list (option string) :=
  match sel_can sel with [] => [None] | ks => map Some ks end.

Definition default_subject (sel : selector) : text_constraint :=
  match sel_subject sel with Some c => c | None => TGlob "*" end.

Lemma query_shape (now : Z) (sel : selector) :
  fst (query now sel 0) =
  mkQuery (proof_groups (query_needs sel) 2) (Var 0) (Var 1)
    (group_clauses (Var 0) (Var 1) (Const (SInt (query_time now sel)))
       (proof_groups (query_needs sel) 2) (4 * length (query_needs sel) + 2)
     ++ [text_match (Var 0) (default_subject sel);
         text_match (Var 1) (sel_audience sel)]).
Proof.
  unfold query, fbind, fret; simpl.
  change (match sel_can sel with [] => [None] | ks => map Some ks end)
    with (query_needs sel).
  rewrite fmapM_proof_group, fmapM_group_clause; reflexivity.
Qed.

(* ------------------------------------------------------------------ *)
(** ** Soundness of a proof group *)

Section GroupSound.
Variable db : list delegation.
Hypothesis Hwf : wf_db db.
Let F := build_index db.

(** What a solution guarantees about one proof group: the proof is a
    delegation of the set to the bound audience, unexpired, with the bound
    issuer; a [did:mailto:] issuer has a matching attestation; a requested
    ability glob-matches the delegated one. *)
Definition group_ok (e' : env) (aud : term) (t : Z) (ps : proof_selector) : Prop :=
  exists dd, In dd db /\
    resolve (ps_proof ps) e' = Some (SLink (cid dd)) /\
    resolve (ps_issuer ps) e' = Some (SStr (issuer dd)) /\
    resolve aud e' = Some (SStr (audience dd)) /\
    unexpired t dd = true /\
    ((is_mailto (issuer dd) = false /\ resolve (ps_attestation ps) e' = None) \/
     exists a, In a db /\ resolve (ps_attestation ps) e' = Some (SLink (cid a)) /\
               attests a dd (audience dd) t) /\
    (forall nd, ps_need ps = Some nd ->
       exists c, resolve (ps_can ps) e' = Some (SStr c) /\ glob c nd = true).

Lemma match_part_sound (e e1 : env) (subj aud : term) (ps : proof_selector)
  (n : nat) (t : Z) :
  In e1 (eval F (match_part subj aud (Const (SInt t)) ps n) e) ->
  exists dd, In dd db /\
    resolve (ps_proof ps) e1 = Some (SLink (cid dd)) /\
    resolve (ps_issuer ps) e1 = Some (SStr (issuer dd)) /\
    resolve aud e1 = Some (SStr (audience dd)) /\
    unexpired t dd = true /\
    (forall nd, ps_need ps = Some nd ->
       exists c, resolve (ps_can ps) e1 = Some (SStr c) /\ glob c nd = true).
Proof.
  unfold match_part, need_clause; intros H.
  assert (M : forall e0, In e0 (eval F (Or (ex_clause (ps_proof ps) (Var n) aud
                (ps_issuer ps) (Var (1 + n)) subj (ps_can ps) (Const (SInt t)))
                (im_clause (ps_proof ps) subj (ps_can ps) (Const (SInt t)) aud
                (ps_issuer ps) (Var (2 + n)) (Var (3 + n)) (Var (4 + n))
                (Var (5 + n)) (Var (6 + n)) (Var (7 + n)))) e) ->
    exists dd, In dd db /\
      resolve (ps_proof ps) e0 = Some (SLink (cid dd)) /\
      resolve (ps_issuer ps) e0 = Some (SStr (issuer dd)) /\
      resolve aud e0 = Some (SStr (audience dd)) /\
      unexpired t dd = true).
  { intros e0 H0; apply in_eval_or in H0 as [H0 | H0].
    - apply ex_sound in H0 as (dd & k & ? & ? & ? & ? & ? & ? & ? & ?); [|exact Hwf].
      exists dd; auto.
    - apply im_sound in H0 as (dd & k & ? & ? & ? & ? & ? & ? & ? & ? & ?); [|exact Hwf].
      exists dd; auto. }
  destruct (ps_need ps) as [nd|] eqn:En.
  - apply in_eval_and in H as (e0 & H0 & Hg).
    apply in_eval_glob in Hg as (<- & s & pat & Rs & Rp & G).
    simpl in Rs; injection Rs as <-.
    apply M in H0 as (dd & ? & ? & ? & ? & ?).
    exists dd; repeat split; auto.
    intros nd' E; injection E as <-; eauto.
  - apply M in H as (dd & ? & ? & ? & ? & ?).
    exists dd; repeat split; auto; discriminate.
Qed.

Lemma group_sound (e e' : env) (subj aud : term) (ps : proof_selector) (n av : nat)
  (t : Z) :
  In e' (eval F (fst (group_clause subj aud (Const (SInt t)) ps n)) e) ->
  ps_attestation ps = Var av -> lookup_env av e = None ->
  ~ In av (clause_vars (match_part subj aud (Const (SInt t)) ps n)) ->
  group_ok e' aud t ps.
Proof.
  rewrite group_clause_fst; intros H Hav Hn Hv.
  apply in_eval_and in H as (e1 & H1 & H2).
  pose proof (eval_extends F _ _ _ H2) as X.
  pose proof (eval_unbound F _ _ _ av H1 Hn Hv) as Hn1.
  apply match_part_sound in H1 as (dd & Hd & R1 & R2 & R3 & U & G).
  exists dd; split; [exact Hd|].
  repeat split; try (eapply resolve_extends; eauto); [exact U | |].
  - apply in_eval_or in H2 as [H2 | H2].
    + apply in_eval_not in H2 as [-> H2]; left; split.
      * destruct (is_mailto (issuer dd)) eqn:Em; [exfalso | reflexivity].
        assert (In e1 (eval F (Glob (ps_issuer ps) (Const (SStr mailto_pattern))) e1))
          as Hg by (apply in_eval_glob; split; [reflexivity | eauto]).
        rewrite H2 in Hg; exact Hg.
      * rewrite Hav; exact Hn1.
    + right.
      apply at_sound in H2 as (a & k & pv & Ha & Hk & Q1 & Q2 & Q3 & Q4 & Q5 & Q6);
        [|exact Hwf].
      assert (pv = SLink (cid dd)) as ->.
      { assert (R1' := resolve_extends _ _ _ _ X R1); congruence. }
      exists a; split; [exact Ha|]; split; [exact Q1|].
      assert (R3' := resolve_extends _ _ _ _ X R3).
      split; [congruence|]; split; [exact Q3|]; exists k; auto.
  - intros nd E; destruct (G nd E) as (c & Rc & Gc).
    exists c; split; [eapply resolve_extends; eauto | exact Gc].
Qed.

End GroupSound.

(* ------------------------------------------------------------------ *)
(** ** Variables used by a proof group *)

Definition selector_vars (subj aud time : term) (ps : proof_selector) : list nat :=
  term_vars subj ++ term_vars aud ++ term_vars time ++ term_vars (ps_issuer ps) ++
  term_vars (ps_can ps) ++ term_vars (ps_proof ps).

Lemma match_part_vars (subj aud time : term) (ps : proof_selector) (n v : nat) :
  In v (clause_vars (match_part subj aud time ps n)) ->
  In v (selector_vars subj aud time ps) \/ (n <= v < 8 + n).
Proof.
  unfold match_part, need_clause, selector_vars.
  destruct (ps_need ps); simpl; intros H;
    repeat (rewrite in_app_iff in H || destruct H as [H | H]);
    rewrite ?in_app_iff; first [ tauto | subst; right; lia | contradiction ].
Qed.

Lemma group_clause_vars (subj aud time : term) (ps : proof_selector) (n v : nat) :
  In v (clause_vars (fst (group_clause subj aud time ps n))) ->
  In v (selector_vars subj aud time ps) \/ In v (term_vars (ps_attestation ps)) \/
  (n <= v < 11 + n).
Proof.
  rewrite group_clause_fst; simpl; rewrite in_app_iff; intros [H | H].
  - apply match_part_vars in H; intuition lia.
  - unfold selector_vars; simpl in H;
      repeat (rewrite in_app_iff in H || destruct H as [H | H]);
      rewrite ?in_app_iff; first [ tauto | subst; right; right; lia | contradiction ].
Qed.

Lemma group_clauses_vars (x : scalar) (needs : list (option string)) :
  forall (n m v : nat) (c : clause),
  In c (group_clauses (Var 0) (Var 1) (Const x) (proof_groups needs n) m) ->
  In v (clause_vars c) ->
  v < 2 \/ (n <= v < n + 4 * length needs) \/ m <= v.
Proof.
  induction needs as [|nd needs IH]; cbn [proof_groups group_clauses In length];
    intros n m v c Hc Hv; [contradiction|].
  destruct Hc as [<- | Hc].
  - apply group_clause_vars in Hv; unfold selector_vars in Hv; simpl in Hv; lia.
  - specialize (IH _ _ _ _ Hc Hv); lia.
Qed.

Lemma text_match_vars (n : nat) (c : text_constraint) (v : nat) :
  In v (clause_vars (text_match (Var n) c)) -> v = n.
Proof. destruct c; simpl; intros [H | []]; auto. Qed.

Section QuerySound.
Variable db : list delegation.
Hypothesis Hwf : wf_db db.
Let F := build_index db.

Lemma group_ok_extends (e e' : env) (aud : term) (t : Z) (ps : proof_selector) :
  group_ok db e aud t ps -> extends e e' ->
  (resolve (ps_attestation ps) e = None -> resolve (ps_attestation ps) e' = None) ->
  group_ok db e' aud t ps.
Proof.
  intros (dd & Hd & R1 & R2 & R3 & U & A & G) X N.
  exists dd; split; [exact Hd|].
  repeat split; try (eapply resolve_extends; eauto); [exact U | |].
  - destruct A as [[A1 A2] | (a & Ha & A2 & A3)]; [left; auto | right].
    exists a; split; [exact Ha | split; [eapply resolve_extends; eauto | exact A3]].
  - intros nd E; destruct (G nd E) as (c & Rc & Gc).
    exists c; split; [eapply resolve_extends; eauto | exact Gc].
Qed.

Lemma groups_sound (t : Z) (rest : list clause) (needs : list (option string)) :
  (forall c v, In c rest -> In v (clause_vars c) -> v < 2) ->
  forall (n m : nat) (e e' : env),
  2 <= n -> n + 4 * length needs <= m ->
  (forall v, n <= v < n + 4 * length needs -> lookup_env v e = None) ->
  In e' (eval_all F (group_clauses (Var 0) (Var 1) (Const (SInt t))
                       (proof_groups needs n) m ++ rest) e) ->
  forall ps, In ps (proof_groups needs n) -> group_ok db e' (Var 1) t ps.
Proof.
  intros Hrest; induction needs as [|nd needs IH];
    intros n m e e' Hn Hm Hu H ps Hps; [contradiction|].
  cbn [group_clauses proof_groups app eval_all] in H.
  apply in_flat_map in H as (e1 & H1 & H2).
  simpl length in Hm, Hu.
  assert (Hvars : forall c v, In c (group_clauses (Var 0) (Var 1) (Const (SInt t))
                     (proof_groups needs (4 + n)) (11 + m) ++ rest) ->
                  In v (clause_vars c) ->
                  v < 2 \/ (4 + n <= v < 4 + n + 4 * length needs) \/ 11 + m <= v).
  { intros c v Hc Hv; apply in_app_iff in Hc as [Hc | Hc].
    - eapply group_clauses_vars; eauto.
    - left; eapply Hrest; eauto. }
  destruct Hps as [<- | Hps].
  - eapply group_ok_extends.
    + eapply group_sound; [exact Hwf | exact H1 | reflexivity | apply Hu; lia |].
      intros Hv; apply match_part_vars in Hv; unfold selector_vars in Hv;
        simpl in Hv; lia.
    + eapply eval_all_extends; exact H2.
    + simpl; intros N; eapply eval_all_unbound; [exact H2 | exact N |].
      intros c Hc Hv; specialize (Hvars c _ Hc Hv); lia.
  - eapply (IH (4 + n) (11 + m) e1); [lia | lia | | exact H2 | exact Hps].
    intros v Hv; eapply eval_unbound; [exact H1 | apply Hu; lia |].
    intros Hc; apply group_clause_vars in Hc; unfold selector_vars in Hc;
      simpl in Hc; lia.
Qed.

Lemma solutions_sound (now : Z) (sel : selector) (e : env) :
  In e (solutions db now sel) ->
  forall ps, In ps (q_proofs (fst (query now sel 0))) ->
  group_ok db e (Var 1) (query_time now sel) ps.
Proof.
  unfold solutions; rewrite query_shape; simpl q_where; simpl q_proofs.
  intros H; eapply groups_sound; [| | | | exact H]; try lia.
  - intros c v [<- | [<- | []]] Hv; apply text_match_vars in Hv; lia.
  - intros v _; reflexivity.
Qed.

End QuerySound.

(* ------------------------------------------------------------------ *)
(** ** Projection and grouping of bindings *)

Lemma in_add_uniq (l : list string) (x y : string) :
  In y (add_uniq l x) <-> In y l \/ y = x.
Proof.
  unfold add_uniq; destruct (existsb (String.eqb x) l) eqn:E.
  - apply existsb_exists in E as (z & Hz & Ez); apply String.eqb_eq in Ez; subst z.
    split; [tauto | intros [H | ->]; auto].
  - rewrite in_app_iff; simpl; split; intros [H | H]; auto;
      destruct H as [H | []]; auto.
Qed.

Lemma in_union (l1 l2 : list string) (x : string) :
  In x (union l1 l2) <-> In x l1 \/ In x l2.
Proof.
  unfold union; revert l1; induction l2 as [|y l2 IH]; intros l1; simpl.
  - tauto.
  - rewrite IH, in_add_uniq; split; intros H; decompose [or] H; subst; auto.
Qed.

Lemma in_filter_map {A B} (f : A -> option B) (l : list A) (b : B) :
  In b (filter_map f l) <-> exists a, In a l /\ f a = Some b.
Proof.
  induction l as [|a l IH]; simpl; [firstorder|].
  destruct (f a) as [b'|] eqn:E; simpl; rewrite IH; split.
  - intros [<- | (a0 & H1 & H2)]; eauto.
  - intros (a0 & [<- | H1] & H2); [left; congruence | eauto].
  - intros (a0 & H1 & H2); eauto.
  - intros (a0 & [<- | H1] & H2); [congruence | eauto].
Qed.

(** Every cited cid of a record stems from a binding with the same
    authority, all of whose cids the record keeps. *)
Definition grouped_from (P : authorization -> Prop) (acc : list authorization) : Prop :=
  forall r c, In r acc -> In c (auth_proofs r) ->
  exists b, P b /\ authority b = authority r /\ In c (auth_proofs b) /\
            incl (auth_proofs b) (auth_proofs r).

Lemma insert_auth_grouped (P : authorization -> Prop) (acc : list authorization)
  (a : authorization) :
  grouped_from P acc -> P a -> grouped_from P (insert_auth acc a).
Proof.
  intros G Pa; induction acc as [|r0 acc IH]; simpl.
  - intros r c [<- | []] Hc; exists a; repeat split; auto using incl_refl.
  - destruct (same_pair r0 a) eqn:E.
    + unfold same_pair in E; apply andb_true_iff in E as [E1 _].
      apply String.eqb_eq in E1.
      intros r c [<- | Hr] Hc.
      * simpl in Hc |- *; apply in_union in Hc as [Hc | Hc].
        -- destruct (G r0 c (or_introl eq_refl) Hc) as (b & Pb & B1 & B2 & B3).
           exists b; repeat split; auto.
           intros x Hx; apply in_union; left; auto.
        -- exists a; repeat split; auto.
           intros x Hx; apply in_union; right; auto.
      * apply (G r c (or_intror Hr) Hc).
    + intros r c [<- | Hr] Hc.
      * apply (G r0 c (or_introl eq_refl) Hc).
      * apply IH; auto; intros r' c' Hr' Hc'; apply G; [right |]; auto.
Qed.

Lemma group_grouped (P : authorization -> Prop) (bs : list authorization) :
  (forall b, In b bs -> P b) -> grouped_from P (group bs).
Proof.
  unfold group; intros HP.
  assert (G : forall acc, grouped_from P acc -> grouped_from P (fold_left insert_auth bs acc)).
  { induction bs as [|b bs IH]; simpl; intros acc Hacc; [exact Hacc|].
    apply IH; [intros; apply HP; right; auto|].
    apply insert_auth_grouped; [exact Hacc | apply HP; left; reflexivity]. }
  apply G; intros r c [].
Qed.

(** A cited cid [c] of record [r] is a delegation of the set, unexpired at
    [t]; a [did:mailto:] issued one is attested by a delegation the record
    also cites, or is itself the attestation of a cited delegation. *)
Definition cited_ok (db : list delegation) (t : Z) (r : authorization) (c : string)
  : Prop :=
  exists d, In d db /\ cid d = c /\ unexpired t d = true /\
    (is_mailto (issuer d) = true ->
     (exists a, In a db /\ In (cid a) (auth_proofs r) /\ attests a d (authority r) t) \/
     (exists p, In p db /\ In (cid p) (auth_proofs r) /\ attests d p (authority r) t)).

Lemma cited_ok_mono (db : list delegation) (t : Z) (b r : authorization) (c : string) :
  authority b = authority r -> incl (auth_proofs b) (auth_proofs r) ->
  cited_ok db t b c -> cited_ok db t r c.
Proof.
  intros A I (d & Hd & E & U & M); exists d; repeat split; auto.
  intros Hm; destruct (M Hm) as [(a & ? & ? & ?) | (p & ? & ? & ?)];
    [left; exists a | right; exists p]; rewrite <- A; auto.
Qed.

Lemma binding_sound (db : list delegation) (now : Z) (sel : selector) (e : env)
  (b : authorization) :
  wf_db db -> In e (solutions db now sel) ->
  binding_authorization (fst (query now sel 0)) e = Some b ->
  forall c, In c (auth_proofs b) -> cited_ok db (query_time now sel) b c.
Proof.
  intros Hwf He Hb c Hc.
  pose proof (solutions_sound db Hwf now sel e He) as G.
  assert (Qa : q_audience (fst (query now sel 0)) = Var 1)
    by (rewrite query_shape; reflexivity).
  set (q := fst (query now sel 0)) in *.
  unfold binding_authorization in Hb; rewrite Qa in Hb.
  destruct (str_of (resolve (Var 1) e)) as [aud|] eqn:Ea; [|discriminate].
  destruct (str_of (resolve (q_subject q) e)) as [subj|]; [|discriminate].
  injection Hb as <-; simpl in Hc |- *.
  assert (Cite : forall ps x, In ps (q_proofs q) ->
            (resolve (ps_proof ps) e = Some (SLink x) \/
             resolve (ps_attestation ps) e = Some (SLink x)) ->
            In x (union [] (flat_map (fun ps => app
                   (option_list (link_of (resolve (ps_proof ps) e)))
                   (option_list (link_of (resolve (ps_attestation ps) e))))
                   (q_proofs q)))).
  { intros ps x Hps Hx; apply in_union; right; apply in_flat_map.
    exists ps; split; [exact Hps|]; apply in_app_iff.
    destruct Hx as [-> | ->]; simpl; auto. }
  apply in_union in Hc as [[] | Hc].
  apply in_flat_map in Hc as (ps & Hps & Hc).
  destruct (G ps Hps) as (dd & Hd & R1 & R2 & R3 & U & A & _).
  rewrite R3 in Ea; injection Ea as <-.
  rewrite R1 in Hc; apply in_app_iff in Hc as [[<- | []] | Hc].
  - exists dd; repeat split; auto.
    intros Hm; left.
    destruct A as [[A _] | (a & Ha & A1 & A2)]; [congruence|].
    exists a; split; [exact Ha | split; [apply (Cite ps); auto | exact A2]].
  - destruct A as [[_ A] | (a & Ha & A1 & A2)]; [rewrite A in Hc; contradiction|].
    rewrite A1 in Hc; destruct Hc as [<- | []].
    pose proof A2 as (_ & A2u & _).
    exists a; split; [exact Ha|]; split; [reflexivity|]; split; [exact A2u|].
    intros _; right; exists dd; split; [exact Hd|].
    split; [apply (Cite ps); auto | exact A2].
Qed.

Lemma find_cited_ok (db : list delegation) (now : Z) (sel : selector)
  (r : authorization) (c : string) :
  wf_db db -> In r (find db now sel) -> In c (auth_proofs r) ->
  cited_ok db (query_time now sel) r c.
Proof.
  intros Hwf Hr Hc; unfold find in Hr.
  destruct (group_grouped
    (fun b => In b (filter_map (binding_authorization (fst (query now sel 0)))
                     (solutions db now sel))) _ (fun b Hb => Hb) r c Hr Hc)
    as (b & Pb & B1 & B2 & B3).
  apply in_filter_map in Pb as (e & He & Hb).
  eapply cited_ok_mono; [exact B1 | exact B3 |].
  eapply binding_sound; eauto.
Qed.

(* ------------------------------------------------------------------ *)
(** ** Completeness of the evaluator *)

(** Variables a clause binds on every solution. *)
Fixpoint binds (c : clause) : list nat :=
  match c with
  | Match t _ u => term_vars t ++ term_vars u
  | And x y => binds x ++ binds y
  | Or x y => List.filter (fun n => existsb (Nat.eqb n) (binds y)) (binds x)
  | Not _ | Glob _ _ | Gte _ _ => []
  | Is t _ => term_vars t
  end.

(** Constraints only read variables bound by what precedes them. *)
Fixpoint ready (B : list nat) (c : clause) : Prop :=
  match c with
  | Match _ _ _ => True
  | And x y => ready B x /\ ready (binds x ++ B) y
  | Or x y => ready B x /\ ready B y
  | Not x => incl (clause_vars x) B
  | Glob t p | Gte t p => incl (term_vars t ++ term_vars p) B
  | Is _ u => incl (term_vars u) B
  end.

Fixpoint ready_all (B : list nat) (cs : list clause) : Prop :=
  match cs with
  | [] => True
  | c :: cs' => ready B c /\ ready_all (binds c ++ B) cs'
  end.

Definition bound (B : list nat) (e : env) : Prop :=
  forall n, In n B -> lookup_env n e <> None.

Section Complete.
Variable F : list fact.
Variable theta : env.

(** [c] holds under the total assignment [theta]. *)
Fixpoint sat (c : clause) : Prop :=
  match c with
  | Match t a u => exists fe fv, resolve t theta = Some fe /\
                     resolve u theta = Some fv /\ In (fe, a, fv) F
  | And x y => sat x /\ sat y
  | Or x y => sat x \/ sat y
  | Not (Glob t p) => exists s pat, resolve t theta = Some (SStr s) /\
                        resolve p theta = Some (SStr pat) /\ glob pat s = false
  | Not _ => False
  | Glob t p => exists s pat, resolve t theta = Some (SStr s) /\
                  resolve p theta = Some (SStr pat) /\ glob pat s = true
  | Is t u => exists v, resolve u theta = Some v /\ resolve t theta = Some v
  | Gte t u => exists a b, resolve t theta = Some a /\ resolve u theta = Some b /\
                 scalar_ge a b = true
  end.

Lemma bound_extends (B : list nat) (e e' : env) :
  bound B e -> extends e e' -> bound B e'.
Proof.
  intros Hb X n Hn E; specialize (Hb n Hn).
  destruct (lookup_env n e) as [v|] eqn:L; [|congruence].
  rewrite (X n v L) in E; discriminate.
Qed.

Lemma bound_resolve (B : list nat) (e : env) (t : term) :
  incl (term_vars t) B -> bound B e -> extends e theta ->
  resolve t e = resolve t theta.
Proof.
  destruct t as [n | c]; simpl; intros I Hb X; [|reflexivity].
  specialize (Hb n (I n (or_introl eq_refl))).
  destruct (lookup_env n e) as [v|] eqn:L; [|congruence].
  symmetry; exact (X n v L).
Qed.

Lemma unify_complete (t : term) (v : scalar) (e : env) :
  extends e theta -> resolve t theta = Some v ->
  exists e1, unify t v e = Some e1 /\ extends e e1 /\ extends e1 theta /\
             bound (term_vars t) e1.
Proof.
  intros X R; destruct t as [n | c]; simpl in R |- *.
  - destruct (lookup_env n e) as [w|] eqn:L.
    + rewrite (X n w L) in R; injection R as ->; rewrite scalar_eqb_refl.
      exists e; split; [reflexivity|]; split; [apply extends_refl|]; split; [exact X|].
      intros m [<- | []]; congruence.
    + exists ((n, v) :: e); split; [reflexivity|].
      assert (X1 : extends e ((n, v) :: e)).
      { intros m w Hm; simpl; destruct (Nat.eqb m n) eqn:E; [|exact Hm].
        apply Nat.eqb_eq in E; subst; congruence. }
      split; [exact X1|]; split.
      * intros m w Hm; simpl in Hm; destruct (Nat.eqb m n) eqn:E; [|auto].
        apply Nat.eqb_eq in E; subst; congruence.
      * intros m [<- | []]; simpl; rewrite Nat.eqb_refl; discriminate.
  - injection R as ->; rewrite scalar_eqb_refl.
    exists e; split; [reflexivity|]; split; [apply extends_refl|]; split; [exact X|].
    intros m [].
Qed.

Lemma bound_app (B1 B2 : list nat) (e : env) :
  bound (B1 ++ B2) e <-> bound B1 e /\ bound B2 e.
Proof.
  unfold bound; split.
  - intros H; split; intros n Hn; apply H, in_app_iff; auto.
  - intros [H1 H2] n Hn; apply in_app_iff in Hn as [Hn | Hn]; auto.
Qed.

Lemma complete (c : clause) : forall (B : list nat) (e : env),
  sat c -> ready B c -> bound B e -> extends e theta ->
  exists e', In e' (eval F c e) /\ extends e' theta /\ bound (binds c ++ B) e'.
Proof.
  induction c as [t a u | x IHx y IHy | x IHx y IHy | x IHx | t p | t u | t u];
    intros B e S Rd Hb X.
  - destruct S as (fe & fv & Rt & Ru & Hf).
    destruct (unify_complete t fe e X Rt) as (e1 & U1 & X1 & T1 & B1).
    destruct (unify_complete u fv e1 T1 Ru) as (e2 & U2 & X2 & T2 & B2).
    exists e2; split; [apply (proj2 (in_eval_match F t a u e e2)); exists fe, fv, e1; auto|]; split; [exact T2|].
    simpl; apply bound_app; split; [apply bound_app; split|].
    + eapply bound_extends; eauto.
    + exact B2.
    + eapply bound_extends; [exact Hb | eapply extends_trans; eauto].
  - destruct S as [Sx Sy]; destruct Rd as [Rx Ry].
    destruct (IHx B e Sx Rx Hb X) as (e1 & H1 & T1 & B1).
    destruct (IHy _ e1 Sy Ry B1 T1) as (e2 & H2 & T2 & B2).
    exists e2; split; [apply in_eval_and; eauto|]; split; [exact T2|].
    simpl; rewrite <- app_assoc; apply bound_app in B2 as [B2 B2'];
      apply bound_app in B2' as [B2' B2''].
    apply bound_app; split; [exact B2'|]; apply bound_app; auto.
  - destruct Rd as [Rx Ry]; destruct S as [S | S];
      [destruct (IHx B e S Rx Hb X) as (e1 & H1 & T1 & B1) |
       destruct (IHy B e S Ry Hb X) as (e1 & H1 & T1 & B1)];
      exists e1; (split; [apply in_eval_or; auto|]); split; try exact T1;
      apply bound_app in B1 as [B1 B1']; apply bound_app; split; auto;
      intros n Hn; simpl in Hn; apply filter_In in Hn as [Hn Hn'];
      apply existsb_exists in Hn' as (m & Hm & E); apply Nat.eqb_eq in E; subst;
      apply B1; auto.
  - destruct x as [| | | |t p| |]; try contradiction.
    destruct S as (s & pat & Rt & Rp & G).
    simpl in Rd; apply incl_app_inv in Rd as [It Ip].
    exists e; split; [|split; [exact X | exact Hb]].
    apply in_eval_not; split; [reflexivity|]; simpl.
    rewrite (bound_resolve B e t It Hb X), (bound_resolve B e p Ip Hb X), Rt, Rp, G.
    reflexivity.
  - destruct S as (s & pat & Rt & Rp & G).
    simpl in Rd; apply incl_app_inv in Rd as [It Ip].
    exists e; split; [|split; [exact X | exact Hb]].
    apply in_eval_glob; split; [reflexivity|].
    rewrite (bound_resolve B e t It Hb X), (bound_resolve B e p Ip Hb X); eauto.
  - destruct S as (v & Ru & Rt); simpl in Rd.
    destruct (unify_complete t v e X Rt) as (e1 & U1 & X1 & T1 & B1).
    exists e1; split.
    + apply in_eval_is; exists v; split; [|exact U1].
      rewrite (bound_resolve B e u Rd Hb X); exact Ru.
    + split; [exact T1|]; apply bound_app; split; [exact B1|].
      eapply bound_extends; eauto.
  - destruct S as (a & b & Rt & Ru & G).
    simpl in Rd; apply incl_app_inv in Rd as [It Iu].
    exists e; split; [|split; [exact X | exact Hb]].
    apply in_eval_gte; split; [reflexivity|].
    rewrite (bound_resolve B e t It Hb X), (bound_resolve B e u Iu Hb X); eauto.
Qed.

Lemma complete_all (cs : list clause) : forall (B : list nat) (e : env),
  Forall sat cs -> ready_all B cs -> bound B e -> extends e theta ->
  exists e', In e' (eval_all F cs e) /\ extends e' theta /\
             bound (flat_map binds cs ++ B) e'.
Proof.
  induction cs as [|c cs IH]; simpl; intros B e S Rd Hb X.
  - exists e; split; [left; reflexivity | auto].
  - inversion S as [| ? ? Sc Scs]; subst; destruct Rd as [Rc Rcs].
    destruct (complete c B e Sc Rc Hb X) as (e1 & H1 & T1 & B1).
    destruct (IH _ e1 Scs Rcs B1 T1) as (e2 & H2 & T2 & B2).
    exists e2; split; [apply in_flat_map; eauto|]; split; [exact T2|].
    rewrite <- app_assoc; apply bound_app in B2 as [B2 B2'];
      apply bound_app in B2' as [B2' B2''].
    apply bound_app; split; [exact B2'|]; apply bound_app; auto.
Qed.

End Complete.

Ltac msat :=
  cbn [sat]; do 2 eexists;
  split; [simpl; first [eassumption | reflexivity]|];
  split; [simpl; first [eassumption | reflexivity]|].

Section GroupComplete.
Variable db : list delegation.
Let F := build_index db.
Variable theta : env.

(** A grant [g] (capability [i] = [k]) delegated to the bound audience,
    with its attestation [a] (capability [j] = [kk]) where its issuer is a
    [did:mailto:] one, satisfies the clause of a proof group binding its
    variables as in [theta]. *)
Lemma group_sat (t : Z) (ps : proof_selector) (m : nat) (g : delegation) (i : nat)
  (k : capability) :
  In g db -> nth_error (capabilities g) i = Some k ->
  lookup_env 0 theta = Some (SStr (cap_with k)) ->
  lookup_env 1 theta = Some (SStr (audience g)) ->
  resolve (ps_proof ps) theta = Some (SLink (cid g)) ->
  resolve (ps_issuer ps) theta = Some (SStr (issuer g)) ->
  resolve (ps_can ps) theta = Some (SStr (cap_can k)) ->
  lookup_env m theta = Some (SCap (cid g) i) ->
  lookup_env (1 + m) theta = Some (expiration_scalar g) ->
  unexpired t g = true ->
  (forall nd, ps_need ps = Some nd -> glob (cap_can k) nd = true) ->
  (is_mailto (issuer g) = false \/
   exists a j kk, In a db /\ nth_error (capabilities a) j = Some kk /\
     cap_can kk = "ucan/attest" /\ In ("proof", SLink (cid g)) (cap_nb kk) /\
     audience a = audience g /\ unexpired t a = true /\
     resolve (ps_attestation ps) theta = Some (SLink (cid a)) /\
     lookup_env (8 + m) theta = Some (SCap (cid a) j) /\
     lookup_env (9 + m) theta = Some (SStr (issuer a)) /\
     lookup_env (10 + m) theta = Some (expiration_scalar a)) ->
  sat F theta (fst (group_clause (Var 0) (Var 1) (Const (SInt t)) ps m)).
Proof.
  intros Hg Hn H0 H1 Hp Hi Hc Hm Hm1 U G A.
  assert (Ms : sat F theta (Or (ex_clause (ps_proof ps) (Var m) (Var 1) (ps_issuer ps)
                 (Var (1 + m)) (Var 0) (ps_can ps) (Const (SInt t)))
                 (im_clause (ps_proof ps) (Var 0) (ps_can ps) (Const (SInt t)) (Var 1)
                 (ps_issuer ps) (Var (2 + m)) (Var (3 + m)) (Var (4 + m))
                 (Var (5 + m)) (Var (6 + m)) (Var (7 + m))))).
  { left; unfold ex_clause, capability_match, dm_clause; cbn [sat].
    repeat split.
    - msat; eapply fact_cap_intro; eauto using cap_facts_can.
    - msat; eapply fact_cap_intro; eauto using cap_facts_with.
    - msat; eapply fact_cap_intro; eauto using cap_facts_capability.
    - msat; apply fact_audience_intro; exact Hg.
    - msat; apply fact_issuer_intro; exact Hg.
    - msat; apply fact_expiration_intro; exact Hg.
    - do 2 eexists; split; [exact Hm1|]; split; [reflexivity|].
      rewrite scalar_ge_expiration; exact U. }
  rewrite group_clause_fst; unfold match_part, need_clause; split.
  - destruct (ps_need ps) as [nd|] eqn:En; [split; [exact Ms|] | exact Ms].
    exists nd, (cap_can k); split; [reflexivity|]; split; [exact Hc|]; auto.
  - destruct A as [A | (a & j & kk & Ha & Hj & K1 & K2 & K3 & K4 & R1 & R2 & R3 & R4)].
    + left; exists (issuer g), mailto_pattern; split; [exact Hi|]; split; [reflexivity|].
      exact A.
    + right; unfold at_clause, dm_clause; simpl sat; repeat split.
      * msat; rewrite <- K1; eapply fact_cap_intro; eauto using cap_facts_can.
      * msat; eapply fact_cap_intro; [exact Ha | exact Hj | apply (cap_facts_nb _ _ _ _ _ K2)].
      * msat; eapply fact_cap_intro; eauto using cap_facts_capability.
      * msat; rewrite <- K3; apply fact_audience_intro; exact Ha.
      * msat; apply fact_issuer_intro; exact Ha.
      * msat; apply fact_expiration_intro; exact Ha.
      * do 2 eexists; split; [exact R4|]; split; [reflexivity|].
        rewrite scalar_ge_expiration; exact K4.
Qed.

End GroupComplete.

(* ------------------------------------------------------------------ *)
(** ** Grouping keeps every binding's record and one record per pair *)

Definition covers (r b : authorization) : Prop :=
  authority r = authority b /\ subject r = subject b /\
  incl (can b) (can r) /\ incl (auth_proofs b) (auth_proofs r).

Lemma covers_merge (r b a : authorization) :
  covers r b -> covers (merge r a) b.
Proof.
  intros (C1 & C2 & C3 & C4); unfold merge; repeat split; simpl; auto;
    intros x Hx; apply in_union; left; auto.
Qed.

Lemma insert_auth_keeps (acc : list authorization) (a b : authorization) :
  (exists r, In r acc /\ covers r b) ->
  exists r, In r (insert_auth acc a) /\ covers r b.
Proof.
  induction acc as [|r0 acc IH]; simpl; intros (r & Hr & C); [contradiction|].
  destruct (same_pair r0 a); destruct Hr as [<- | Hr].
  - exists (merge r0 a); split; [left; reflexivity | apply covers_merge; exact C].
  - exists r; split; [right; exact Hr | exact C].
  - exists r0; split; [left; reflexivity | exact C].
  - destruct IH as (r' & Hr' & C'); [exists r; auto|].
    exists r'; split; [right; exact Hr' | exact C'].
Qed.

Lemma insert_auth_new (acc : list authorization) (a : authorization) :
  exists r, In r (insert_auth acc a) /\ covers r a.
Proof.
  induction acc as [|r0 acc IH]; simpl.
  - exists a; split; [left; reflexivity | repeat split; apply incl_refl].
  - destruct (same_pair r0 a) eqn:E.
    + exists (merge r0 a); split; [left; reflexivity|].
      unfold same_pair in E; apply andb_true_iff in E as [E1 E2].
      apply String.eqb_eq in E1, E2.
      repeat split; simpl; auto; intros x Hx; apply in_union; right; auto.
    + destruct IH as (r & Hr & C); exists r; split; [right |]; auto.
Qed.

Lemma group_covers (bs : list authorization) (b : authorization) :
  In b bs -> exists r, In r (group bs) /\ covers r b.
Proof.
  unfold group.
  assert (K : forall bs acc, (exists r, In r acc /\ covers r b) ->
              exists r, In r (fold_left insert_auth bs acc) /\ covers r b).
  { induction bs0 as [|a bs0 IH]; simpl; intros acc H; [exact H|].
    apply IH, insert_auth_keeps, H. }
  assert (N : forall bs acc, In b bs ->
              exists r, In r (fold_left insert_auth bs acc) /\ covers r b).
  { induction bs0 as [|a bs0 IH]; simpl; intros acc Hb; [contradiction|].
    destruct Hb as [<- | Hb]; [apply K, insert_auth_new | apply IH, Hb]. }
  apply N.
Qed.

(** Records have pairwise distinct (authority, subject) pairs. *)
Fixpoint pairs_unique (acc : list authorization) : Prop :=
  match acc with
  | [] => True
  | r :: acc' => (forall r', In r' acc' -> same_pair r' r = false) /\ pairs_unique acc'
  end.

Lemma same_pair_merge (r a x : authorization) :
  same_pair x (merge r a) = same_pair x r.
Proof. reflexivity. Qed.

Lemma insert_auth_pairs (acc : list authorization) (a : authorization) :
  pairs_unique acc ->
  pairs_unique (insert_auth acc a) /\
  (forall x, In x (insert_auth acc a) -> same_pair x a = true \/ In x acc).
Proof.
  induction acc as [|r0 acc IH]; simpl; intros P.
  - split; [split; [intros r' [] | exact I]|].
    intros x [<- | []]; left; unfold same_pair; rewrite !String.eqb_refl; reflexivity.
  - destruct P as [P0 P]; destruct (same_pair r0 a) eqn:E.
    + split.
      * simpl; split; [intros r' Hr'; rewrite same_pair_merge; auto | exact P].
      * intros x [<- | Hx]; [left; exact E | right; right; exact Hx].
    + destruct (IH P) as [P' Hin]; split.
      * simpl; split; [|exact P'].
        intros r' Hr'; destruct (Hin r' Hr') as [S | S]; [|auto].
        unfold same_pair in S, E |- *.
        apply andb_true_iff in S as [S1 S2]; apply String.eqb_eq in S1, S2.
        rewrite S1, S2, (String.eqb_sym (authority a)), (String.eqb_sym (subject a)).
        exact E.
      * intros x [<- | Hx]; [right; left; reflexivity|].
        destruct (Hin x Hx) as [S | S]; [left; exact S | right; right; exact S].
Qed.

Lemma group_pairs_unique (bs : list authorization) : pairs_unique (group bs).
Proof.
  unfold group.
  assert (K : forall bs acc, pairs_unique acc ->
              pairs_unique (fold_left insert_auth bs acc)).
  { induction bs0 as [|a bs0 IH]; simpl; intros acc P; [exact P|].
    apply IH, insert_auth_pairs, P. }
  apply K; exact I.
Qed.

Lemma pairs_unique_eq (acc : list authorization) (r1 r2 : authorization) :
  pairs_unique acc -> In r1 acc -> In r2 acc ->
  authority r1 = authority r2 -> subject r1 = subject r2 -> r1 = r2.
Proof.
  assert (SP : forall x y, authority x = authority y -> subject x = subject y ->
                 same_pair x y = true).
  { intros x y E1 E2; unfold same_pair; rewrite E1, E2, !String.eqb_refl; reflexivity. }
  induction acc as [|r acc IH]; simpl; intros P H1 H2 E1 E2; [contradiction|].
  destruct P as [P0 P]; destruct H1 as [<- | H1]; destruct H2 as [<- | H2]; auto.
  - specialize (P0 r2 H2); rewrite SP in P0 by congruence; discriminate.
  - specialize (P0 r1 H1); rewrite SP in P0 by congruence; discriminate.
Qed.

Lemma find_of_binding (db : list delegation) (now : Z) (sel : selector) (e : env)
  (b : authorization) :
  In e (solutions db now sel) ->
  binding_authorization (fst (query now sel 0)) e = Some b ->
  exists r, In r (find db now sel) /\ covers r b.
Proof.
  intros He Hb; unfold find; apply group_covers, in_filter_map; eauto.
Qed.

Lemma extends_nil (e : env) : extends [] e.
Proof. intros n v H; discriminate. Qed.

Lemma bound_nil (e : env) : bound [] e.
Proof. intros n []. Qed.

(** The [where] list of a query for one requested ability. *)
Lemma where_single (now : Z) (sel : selector) (A : string) :
  sel_can sel = [A] ->
  q_where (fst (query now sel 0)) =
  [fst (group_clause (Var 0) (Var 1) (Const (SInt (query_time now sel)))
          (mkProofSelector (Var 2) (Var 3) (Var 4) (Var 5) (Some A)) 6);
   text_match (Var 0) (default_subject sel);
   text_match (Var 1) (sel_audience sel)].
Proof. intros H; rewrite query_shape; unfold query_needs; rewrite H; reflexivity. Qed.

Lemma ready_single (t : Z) (A : string) (c1 c2 : text_constraint) :
  ready_all []
    [fst (group_clause (Var 0) (Var 1) (Const (SInt t))
            (mkProofSelector (Var 2) (Var 3) (Var 4) (Var 5) (Some A)) 6);
     text_match (Var 0) c1; text_match (Var 1) c2].
Proof.
  destruct c1, c2; simpl; repeat split; intros x Hx; simpl in *; intuition.
Qed.

Lemma binds_group_single (t : Z) (A : string) :
  incl [0; 1; 4] (binds (fst (group_clause (Var 0) (Var 1) (Const (SInt t))
                     (mkProofSelector (Var 2) (Var 3) (Var 4) (Var 5) (Some A)) 6))).
Proof. intros x Hx; simpl in *; intuition. Qed.

(** A grant [g] (capability [i] = [k]) found by the group of a query for
    one ability [A], under an assignment [theta] of the query's variables
    that satisfies the subject and audience constraints, yields a record
    for its audience and resource citing it. *)
Lemma single_found (db : list delegation) (now : Z) (sel : selector) (A : string)
  (theta : env) (g : delegation) (i : nat) (k : capability) :
  sel_can sel = [A] -> In g db -> nth_error (capabilities g) i = Some k ->
  lookup_env 0 theta = Some (SStr (cap_with k)) ->
  lookup_env 1 theta = Some (SStr (audience g)) ->
  lookup_env 2 theta = Some (SStr (issuer g)) ->
  lookup_env 3 theta = Some (SStr (cap_can k)) ->
  lookup_env 4 theta = Some (SLink (cid g)) ->
  lookup_env 6 theta = Some (SCap (cid g) i) ->
  lookup_env 7 theta = Some (expiration_scalar g) ->
  unexpired (query_time now sel) g = true -> glob (cap_can k) A = true ->
  (is_mailto (issuer g) = false \/
   exists a j kk, In a db /\ nth_error (capabilities a) j = Some kk /\
     cap_can kk = "ucan/attest" /\ In ("proof", SLink (cid g)) (cap_nb kk) /\
     audience a = audience g /\ unexpired (query_time now sel) a = true /\
     lookup_env 5 theta = Some (SLink (cid a)) /\
     lookup_env 14 theta = Some (SCap (cid a) j) /\
     lookup_env 15 theta = Some (SStr (issuer a)) /\
     lookup_env 16 theta = Some (expiration_scalar a)) ->
  sat (build_index db) theta (text_match (Var 0) (default_subject sel)) ->
  sat (build_index db) theta (text_match (Var 1) (sel_audience sel)) ->
  exists r, In r (find db now sel) /\ authority r = audience g /\
    subject r = cap_with k /\ In (cid g) (auth_proofs r) /\ In A (can r).
Proof.
  intros Hs Hg Hn L0 L1 L2 L3 L4 L6 L7 U G Att T0 T1.
  assert (Sat : Forall (sat (build_index db) theta) (q_where (fst (query now sel 0)))).
  { rewrite (where_single now sel A Hs); constructor; [|constructor; [exact T0 |
      constructor; [exact T1 | constructor]]].
    eapply group_sat; simpl; eauto.
    intros nd E; injection E as <-; exact G. }
  assert (Rd : ready_all [] (q_where (fst (query now sel 0))))
    by (rewrite (where_single now sel A Hs); apply ready_single).
  destruct (complete_all _ theta _ [] [] Sat Rd (bound_nil _) (extends_nil _))
    as (e' & He & X & Bd).
  rewrite (where_single now sel A Hs) in Bd; cbn [flat_map] in Bd.
  apply bound_app in Bd as [Bd _]; apply bound_app in Bd as [Bd _].
  assert (R : forall n, In n [0; 1; 4] -> lookup_env n e' = lookup_env n theta).
  { intros n Hin; eapply (bound_resolve theta _ e' (Var n)); [| exact Bd | exact X].
    intros x [<- | []]; apply binds_group_single; exact Hin. }
  assert (Q : fst (query now sel 0) =
    mkQuery [mkProofSelector (Var 2) (Var 3) (Var 4) (Var 5) (Some A)] (Var 0) (Var 1)
      (q_where (fst (query now sel 0)))).
  { rewrite (where_single now sel A Hs), query_shape; unfold query_needs; rewrite Hs;
      reflexivity. }
  assert (Hb : exists b, binding_authorization (fst (query now sel 0)) e' = Some b /\
    authority b = audience g /\ subject b = cap_with k /\
    In (cid g) (auth_proofs b) /\ In A (can b)).
  { rewrite Q; unfold binding_authorization; simpl.
    rewrite (R 1), (R 0), (R 4), L1, L0, L4 by (simpl; tauto).
    eexists; split; [reflexivity|]; simpl; split; [reflexivity|]; split; [reflexivity|].
    split; simpl; [apply in_union; left; simpl; left; reflexivity | auto]. }
  destruct Hb as (b & Hb & B1 & B2 & B3 & B4).
  destruct (find_of_binding db now sel e' b He Hb) as (r & Hr & C1 & C2 & C3 & C4).
  exists r; split; [exact Hr|]; split; [congruence|]; split; [congruence|].
  split; [apply C4 | apply C3]; assumption.
Qed.

(** The [where] list of a query for two requested abilities. *)
Lemma where_double (now : Z) (sel : selector) (A1 A2 : string) :
  sel_can sel = [A1; A2] ->
  q_where (fst (query now sel 0)) =
  [fst (group_clause (Var 0) (Var 1) (Const (SInt (query_time now sel)))
          (mkProofSelector (Var 2) (Var 3) (Var 4) (Var 5) (Some A1)) 10);
   fst (group_clause (Var 0) (Var 1) (Const (SInt (query_time now sel)))
          (mkProofSelector (Var 6) (Var 7) (Var 8) (Var 9) (Some A2)) 21);
   text_match (Var 0) (default_subject sel);
   text_match (Var 1) (sel_audience sel)].
Proof. intros H; rewrite query_shape; unfold query_needs; rewrite H; reflexivity. Qed.

Lemma ready_double (t : Z) (A1 A2 : string) (c1 c2 : text_constraint) :
  ready_all []
    [fst (group_clause (Var 0) (Var 1) (Const (SInt t))
            (mkProofSelector (Var 2) (Var 3) (Var 4) (Var 5) (Some A1)) 10);
     fst (group_clause (Var 0) (Var 1) (Const (SInt t))
            (mkProofSelector (Var 6) (Var 7) (Var 8) (Var 9) (Some A2)) 21);
     text_match (Var 0) c1; text_match (Var 1) c2].
Proof.
  destruct c1, c2; simpl; repeat split; intros x Hx; simpl in *; intuition.
Qed.

Lemma binds_group_double (t : Z) (A1 A2 : string) :
  incl [0; 1; 4] (binds (fst (group_clause (Var 0) (Var 1) (Const (SInt t))
                     (mkProofSelector (Var 2) (Var 3) (Var 4) (Var 5) (Some A1)) 10))) /\
  incl [8] (binds (fst (group_clause (Var 0) (Var 1) (Const (SInt t))
                     (mkProofSelector (Var 6) (Var 7) (Var 8) (Var 9) (Some A2)) 21))).
Proof. split; intros x Hx; simpl in *; intuition. Qed.

(** The attestation gate of a group holds under [theta]: the issuer of [g]
    is not a [did:mailto:] DID, or [theta] binds the group's attestation
    variables to an unexpired attestation of [g]. *)
Definition attested_in (db : list delegation) (t : Z) (theta : env) (g : delegation)
  (v cv iv ev : nat) : Prop :=
  is_mailto (issuer g) = false \/
  exists a j kk, In a db /\ nth_error (capabilities a) j = Some kk /\
    cap_can kk = "ucan/attest" /\ In ("proof", SLink (cid g)) (cap_nb kk) /\
    audience a = audience g /\ unexpired t a = true /\
    lookup_env v theta = Some (SLink (cid a)) /\
    lookup_env cv theta = Some (SCap (cid a) j) /\
    lookup_env iv theta = Some (SStr (issuer a)) /\
    lookup_env ev theta = Some (expiration_scalar a).

Lemma double_found (db : list delegation) (now : Z) (sel : selector) (A1 A2 : string)
  (theta : env) (g1 : delegation) (i1 : nat) (k1 : capability)
  (g2 : delegation) (i2 : nat) (k2 : capability) :
  sel_can sel = [A1; A2] ->
  In g1 db -> nth_error (capabilities g1) i1 = Some k1 ->
  In g2 db -> nth_error (capabilities g2) i2 = Some k2 ->
  cap_with k2 = cap_with k1 -> audience g2 = audience g1 ->
  lookup_env 0 theta = Some (SStr (cap_with k1)) ->
  lookup_env 1 theta = Some (SStr (audience g1)) ->
  lookup_env 2 theta = Some (SStr (issuer g1)) ->
  lookup_env 3 theta = Some (SStr (cap_can k1)) ->
  lookup_env 4 theta = Some (SLink (cid g1)) ->
  lookup_env 10 theta = Some (SCap (cid g1) i1) ->
  lookup_env 11 theta = Some (expiration_scalar g1) ->
  lookup_env 6 theta = Some (SStr (issuer g2)) ->
  lookup_env 7 theta = Some (SStr (cap_can k2)) ->
  lookup_env 8 theta = Some (SLink (cid g2)) ->
  lookup_env 21 theta = Some (SCap (cid g2) i2) ->
  lookup_env 22 theta = Some (expiration_scalar g2) ->
  unexpired (query_time now sel) g1 = true -> unexpired (query_time now sel) g2 = true ->
  glob (cap_can k1) A1 = true -> glob (cap_can k2) A2 = true ->
  attested_in db (query_time now sel) theta g1 5 18 19 20 ->
  attested_in db (query_time now sel) theta g2 9 29 30 31 ->
  sat (build_index db) theta (text_match (Var 0) (default_subject sel)) ->
  sat (build_index db) theta (text_match (Var 1) (sel_audience sel)) ->
  exists r, In r (find db now sel) /\ authority r = audience g1 /\
    subject r = cap_with k1 /\ In (cid g1) (auth_proofs r) /\
    In (cid g2) (auth_proofs r) /\ In A1 (can r) /\ In A2 (can r).
Proof.
  intros Hs Hg1 Hn1 Hg2 Hn2 W Au L0 L1 L2 L3 L4 L10 L11 L6 L7 L8 L21 L22
    U1 U2 G1 G2 Att1 Att2 T0 T1.
  assert (Sat : Forall (sat (build_index db) theta) (q_where (fst (query now sel 0)))).
  { rewrite (where_double now sel A1 A2 Hs).
    constructor; [|constructor; [|constructor; [exact T0 | constructor; [exact T1 |
      constructor]]]].
    - eapply (group_sat db theta _ _ _ g1 i1 k1); simpl; eauto;
        intros nd E; injection E as <-; exact G1.
    - eapply (group_sat db theta _ _ _ g2 i2 k2); simpl; try rewrite W; try rewrite Au;
        eauto; [intros nd E; injection E as <-; exact G2 |].
      rewrite <- Au; exact Att2. }
  assert (Rd : ready_all [] (q_where (fst (query now sel 0))))
    by (rewrite (where_double now sel A1 A2 Hs); apply ready_double).
  destruct (complete_all _ theta _ [] [] Sat Rd (bound_nil _) (extends_nil _))
    as (e' & He & X & Bd).
  rewrite (where_double now sel A1 A2 Hs) in Bd; cbn [flat_map] in Bd.
  apply bound_app in Bd as [Bd _]; apply bound_app in Bd as [Bd1 Bd].
  apply bound_app in Bd as [Bd2 _].
  destruct (binds_group_double (query_time now sel) A1 A2) as [I1 I2].
  assert (R : forall n, In n [0; 1; 4; 8] -> lookup_env n e' = lookup_env n theta).
  { intros n Hin.
    assert (Hb : lookup_env n e' <> None).
    { destruct Hin as [<- | [<- | [<- | [<- | []]]]];
        [apply Bd1, I1 | apply Bd1, I1 | apply Bd1, I1 | apply Bd2, I2]; simpl; tauto. }
    destruct (lookup_env n e') as [v|] eqn:E; [|congruence].
    symmetry; exact (X n v E). }
  assert (Q : fst (query now sel 0) =
    mkQuery [mkProofSelector (Var 2) (Var 3) (Var 4) (Var 5) (Some A1);
             mkProofSelector (Var 6) (Var 7) (Var 8) (Var 9) (Some A2)] (Var 0) (Var 1)
      (q_where (fst (query now sel 0)))).
  { rewrite (where_double now sel A1 A2 Hs), query_shape; unfold query_needs; rewrite Hs;
      reflexivity. }
  assert (Hb : exists b, binding_authorization (fst (query now sel 0)) e' = Some b /\
    authority b = audience g1 /\ subject b = cap_with k1 /\
    In (cid g1) (auth_proofs b) /\ In (cid g2) (auth_proofs b) /\
    In A1 (can b) /\ In A2 (can b)).
  { rewrite Q; unfold binding_authorization; simpl.
    rewrite (R 1), (R 0), (R 4), (R 8), L1, L0, L4, L8 by (simpl; tauto).
    eexists; split; [reflexivity|]; split; [reflexivity|]; split; [reflexivity|].
    simpl; repeat split; repeat (rewrite in_add_uniq || rewrite in_union);
      simpl; rewrite ?in_app_iff; simpl; tauto. }
  destruct Hb as (b & Hb & B1 & B2 & B3 & B4 & B5 & B6).
  destruct (find_of_binding db now sel e' b He Hb) as (r & Hr & C1 & C2 & C3 & C4).
  exists r; split; [exact Hr|]; split; [congruence|]; split; [congruence|].
  repeat split; [apply C4 | apply C4 | apply C3 | apply C3]; assumption.
Qed.

(** Bindings of a group's attestation variables to attestation [a]
    (capability [j]). *)
Definition att_bind (v cv iv ev : nat) (o : option (delegation * nat)) : env :=
  match o with
  | None => []
  | Some (a, j) => [(v, SLink (cid a)); (cv, SCap (cid a) j); (iv, SStr (issuer a));
                    (ev, expiration_scalar a)]
  end.

Ltac attested_tac :=
  unfold attested_in;
  first
  [ left; assumption
  | right;
    match goal with
    | |- context [In ("proof", SLink (cid ?P)) _] =>
        match goal with
        | Hj : nth_error (capabilities ?a) ?j = Some ?kk,
          K : In ("proof", SLink (cid P)) (cap_nb ?kk) |- _ => exists a, j, kk
        end
    end;
    repeat split; try reflexivity; try assumption; congruence ].

(** [Delegation.implicit] evaluated on a given delegation with every other
    parameter given: it has a solution. *)
Definition implicit_accepts (db : list delegation) (d : delegation)
  (subj can : string) (t : Z) (aud iss : string) : Prop :=
  eval (build_index db)
    (fst (implicit (Const (SLink (cid d))) (Some (Const (SStr subj)))
            (Some (Const (SStr can))) (Some (Const (SInt t)))
            (Some (Const (SStr aud))) (Some (Const (SStr iss))) 0)) [] <> [].

Lemma eval_nonempty (F : list fact) (theta : env) (c : clause) :
  sat F theta c -> ready [] c -> eval F c [] <> [].
Proof.
  intros S R; destruct (complete F theta c [] [] S R (bound_nil _) (extends_nil _))
    as (e' & He & _); destruct (eval F c []); [contradiction | discriminate].
Qed.

Lemma implicit_ready (d s c t a i : scalar) :
  ready [] (im_clause (Const d) (Const s) (Const c) (Const t) (Const a) (Const i)
              (Var 0) (Var 1) (Var 2) (Var 3) (Var 4) (Var 5)).
Proof. simpl; repeat split; intros x Hx; simpl in *; intuition. Qed.

(** [Delegation.explicit] evaluated on a given delegation with every other
    parameter given: it has a solution. *)
Definition explicit_accepts (db : list delegation) (d : delegation)
  (aud iss subj can : string) (t : Z) : Prop :=
  eval (build_index db)
    (fst (explicit (Const (SLink (cid d))) (Some (Const (SStr aud)))
            (Some (Const (SStr iss))) (Some (Const (SStr subj)))
            (Some (Const (SStr can))) (Some (Const (SInt t))) 0)) [] <> [].

Lemma explicit_ready (d a i s c t : scalar) :
  ready [] (ex_clause (Const d) (Var 0) (Const a) (Const i) (Var 1) (Const s)
              (Const c) (Const t)).
Proof. simpl; repeat split; intros x Hx; simpl in *; intuition. Qed.

Lemma unexpired_iff (t : Z) (d : delegation) :
  unexpired t d = true <->
  match expiration d with Some te => (t <= te)%Z | None => True end.
Proof.
  unfold unexpired; destruct (expiration d); [apply Z.leb_le | tauto].
Qed.

Lemma map_need_groups (needs : list (option string)) : forall (n : nat),
  map ps_need (proof_groups needs n) = needs.
Proof. induction needs as [|nd needs IH]; intros n; simpl; f_equal; auto. Qed.

Lemma group_clauses_length (subj aud time : term) (ps : list proof_selector) :
  forall (n : nat), length (group_clauses subj aud time ps n) = length ps.
Proof. induction ps as [|p ps IH]; intros n; simpl; f_equal; auto. Qed.

Lemma group_clauses_nth (subj aud time : term) (ps : list proof_selector) :
  forall (n i : nat) (p : proof_selector), nth_error ps i = Some p ->
  nth_error (group_clauses subj aud time ps n) i =
  Some (fst (group_clause subj aud time p (11 * i + n))).
Proof.
  induction ps as [|p0 ps IH]; intros n [|i] p H; cbn [nth_error group_clauses] in *;
    try discriminate.
  - injection H as <-; do 3 f_equal; lia.
  - rewrite (IH (11 + n) i p H); do 3 f_equal; lia.
Qed.

(* ------------------------------------------------------------------ *)
(** ** Example delegations *)

Definition ex_account : string := "did:mailto:web.mail:alice".
Definition ex_agent : string := "did:key:alice".
Definition ex_service : string := "did:web:w3up".
Definition ex_space : string := "did:key:space".

(** The account's [ucan:*] grant to the agent. *)
Definition ex_login : delegation :=
  mkDelegation "bafylogin" ex_account ex_agent None
    [mkCapability "*" "ucan:*" []] [].

(** An attestation of [ex_login] issued by the service. *)
Definition ex_att : delegation :=
  mkDelegation "bafyatt" ex_service ex_agent None
    [mkCapability "ucan/attest" ex_service [("proof", SLink "bafylogin")]] [].

(** An attestation of [ex_login] issued by the account itself. *)
Definition ex_self_att : delegation :=
  mkDelegation "bafyatt" ex_account ex_agent None
    [mkCapability "ucan/attest" ex_account [("proof", SLink "bafylogin")]] [].

(** The record a query for [ex_login_sel] finds. *)
Definition ex_login_auth : authorization :=
  mkAuthorization ex_agent ex_account ["*"] ["bafylogin"; "bafyatt"].

Definition ex_login_sel : selector :=
  mkSelector (TExact ex_agent) ["*"] (Some (TExact ex_account)) (Some 100%Z).

(** Direct grants on the space, by the space key or by the account. *)
Definition ex_add : delegation :=
  mkDelegation "bafyadd" ex_space ex_agent (Some 200%Z)
    [mkCapability "store/add" ex_space []] [].

Definition ex_remove : delegation :=
  mkDelegation "bafyremove" ex_space ex_agent None
    [mkCapability "store/remove" ex_space []] [].

Definition ex_madd : delegation :=
  mkDelegation "bafymadd" ex_account ex_agent None
    [mkCapability "store/add" ex_space []] [].

Definition ex_mremove : delegation :=
  mkDelegation "bafymremove" ex_account ex_agent None
    [mkCapability "store/remove" ex_space []] [].

(** The agent forwards [store/add] to the service with a [ucan:*]
    capability, citing the space key's grant [ex_add] as proof. *)
Definition ex_fw : delegation :=
  mkDelegation "bafyfw" ex_agent ex_service None
    [mkCapability "store/add" "ucan:*" []] ["bafyadd"].

(* ------------------------------------------------------------------ *)
(** ** The delegation store of the access API (DbDelegationsStorageWithR2) *)

(** The ucanto delegation interface and the CAR codec of
    [@web3-storage/access/encoding]. *)
Class Codec (D : Type) := {
  delegation_cid : D -> string;
  delegation_audience : D -> string;
  delegation_issuer : D -> string;
  delegationsToBytes : list D -> list Byte.byte;
  bytesToDelegations : list Byte.byte -> list D;
  delegationToString : D -> string
}.

(** A JS error: its [name] and [message]. *)
Record js_error := mkError { err_name : string; err_message : string }.

Inductive outcome (A : Type) :=
| Ok (a : A)
| Err (e : js_error).
Arguments Ok {A} a.
Arguments Err {A} e.

Definition UnexpectedDelegation (message : string) : js_error :=
  mkError "UnexpectedDelegation" message.

(** [new Error(message)]. *)
Definition new_Error (message : string) : js_error := mkError "Error" message.

Definition string_of_nat (n : nat) : string :=
  DecimalString.NilZero.string_of_uint (Nat.to_uint n).

(** A row of [delegations_v3]. *)
Record row := mkRow { row_cid : string; row_audience : string; row_issuer : string }.

(** The R2 bucket of CAR files, the rows of the table and [db.canStream].
    The rows are kept as a list; its order stands for the order in which
    the database happens to return them: the [select]s of the store have
    no [ORDER BY], so this order is unspecified, and properties that
    depend on it are stated for every permutation of the rows. *)
Record store := mkStore {
  dags : gmap string (list Byte.byte);
  rows : list row;
  canStream : bool
}.

Definition carFileKeyer (c : string) : string := c +:+ ".car".

Section StoreModel.
Context {D : Type} `{Codec D}.

Definition createDelegationRowUpdateV3 (d : D) : row :=
  mkRow (delegation_cid d) (delegation_audience d) (delegation_issuer d).

Definition writeDelegations (bucket : gmap string (list Byte.byte)) (ds : list D)
  : gmap string (list Byte.byte) :=
  fold_left (fun b d => <[carFileKeyer (delegation_cid d) := delegationsToBytes [d]]> b)
    ds bucket.

(** [insertInto(...).values(values).onConflict(cid).doNothing()]. *)
Definition insert_rows (table : list row) (values : list row) : list row :=
  fold_left (fun tb v => if existsb (fun r => String.eqb (row_cid r) (row_cid v)) tb
                         then tb else tb ++ [v]) values table.

Definition putMany (ds : list D) (st : store) : outcome unit * store :=
  if Nat.eqb (length ds) 0 then (Ok tt, st)
  else (Ok tt, mkStore (writeDelegations (dags st) ds)
                       (insert_rows (rows st) (map createDelegationRowUpdateV3 ds))
                       (canStream st)).

Definition rowToDelegation (r : row) (bucket : gmap string (list Byte.byte))
  : outcome D :=
  let cidString := row_cid r in
  match bucket !! carFileKeyer cidString with
  | None => Err (new_Error ("failed to read car bytes for cid " +:+ cidString))
  | Some carBytes =>
      let delegations := bytesToDelegations carBytes in
      if negb (Nat.eqb (length delegations) 1)
      then Err (new_Error ("expected 1 delegation in CAR, but got " +:+
                           string_of_nat (length delegations)))
      else match delegations with
           | [delegation] => Ok delegation
           | _ => Err (new_Error "unreachable")
           end
  end.

(** The delegations a generator yields over [rs], then the error it throws,
    if any. *)
Fixpoint yield_rows (rs : list row) (bucket : gmap string (list Byte.byte))
  : list D * option js_error :=
  match rs with
  | [] => ([], None)
  | r :: rs' => match rowToDelegation r bucket with
                | Ok d => let '(l, e) := yield_rows rs' bucket in (d :: l, e)
                | Err e => ([], Some e)
                end
  end.


(** [[Symbol.asyncIterator]]: the rows streamed in the order of [rows st]. *)
Definition asyncIterator (st : store) : list D * option js_error :=
  if negb (canStream st)
  then ([], Some (mkError "NotImplementedError"
      "cannot create asyncIterator because the underlying database does not support streaming"))
  else yield_rows (rows st) (dags st).

(* ------------------------------------------------------------------ *)
(** ** Accounts (KV of JSON string arrays per email) *)

Definition saveDelegation (email : string) (d : D) (kv : gmap string (list string))
  : gmap string (list string) :=
  match kv !! email with
  | Some accs => <[email := accs ++ [delegationToString d]]> kv
  | None => <[email := [delegationToString d]]> kv
  end.

Definition getDelegations (email : string) (kv : gmap string (list string))
  : option (list string) :=
  kv !! email.

End StoreModel.

(* ------------------------------------------------------------------ *)
(** ** More of the access API stores *)

Section StoreModel2.
Context {D : Type} `{Codec D}.

(** [count()]: [select count(cid)] over the table; every row has a cid. *)
Definition count (st : store) : Z := Z.of_nat (length (rows st)).

End StoreModel2.

(** A value of the kysely [bytes] column: an [ArrayBuffer] view (a Node
    [Buffer] or a typed array) given by the bytes of its buffer, its
    [byteOffset] and [byteLength]; a JS [Array] of integers; or anything
    else. *)
Inductive sql_value :=
| SqlView (buffer : list Z) (byteOffset byteLength : nat)
| SqlArray (values : list Z)
| SqlOther.

(** [Uint8Array.from] on an integer: ToUint8, i.e. modulo 2^8. *)
Definition to_uint8 (x : Z) : Z := Z.modulo x 256.

Definition delegationsTableBytesToArrayBuffer (sqlValue : sql_value) : option (list Z) :=
  match sqlValue with
  | SqlView buffer byteOffset byteLength =>
      Some (firstn byteLength (skipn byteOffset buffer))
  | SqlArray values => Some (map to_uint8 values)
  | SqlOther => None
  end.

(** [JSON.stringify] on an array of strings. *)
Definition hex_digit (n : nat) : ascii :=
  if Nat.ltb n 10 then ascii_of_nat (48 + n) else ascii_of_nat (87 + n).

Definition json_char (c : ascii) : string :=
  let n := nat_of_ascii c in
  let bs := String (ascii_of_nat 92) in
  if Nat.eqb n 34 then bs (String c EmptyString)
  else if Nat.eqb n 92 then bs (String c EmptyString)
  else if Nat.eqb n 8 then bs "b"
  else if Nat.eqb n 12 then bs "f"
  else if Nat.eqb n 10 then bs "n"
  else if Nat.eqb n 13 then bs "r"
  else if Nat.eqb n 9 then bs "t"
  else if Nat.ltb n 32 then bs (String "u" (String "0" (String "0"
         (String (hex_digit (n / 16)) (String (hex_digit (n mod 16)) EmptyString)))))
  else String c EmptyString.

Fixpoint json_chars (s : string) : string :=
  match s with
  | EmptyString => EmptyString
  | String c s' => json_char c +:+ json_chars s'
  end.

Definition json_string (s : string) : string :=
  String (ascii_of_nat 34) (json_chars s +:+ String (ascii_of_nat 34) EmptyString).

Definition json_stringify (l : list string) : string :=
  "[" +:+ String.concat "," (map json_string l) +:+ "]".

(** [hasDelegations]: [Boolean] of the stored text ([kv.get(email)] without
    a type reads the JSON text [saveDelegation] wrote, or [null]). *)
Definition hasDelegations (email : string) (kv : gmap string (list string)) : bool :=
  match kv !! email with
  | Some accs => negb (String.eqb (json_stringify accs) "")
  | None => false
  end.

(** [String.prototype.replace] with a string pattern: the first occurrence
    only. *)
Fixpoint replace_first (pat rep s : string) : string :=
  if String.prefix pat s then rep +:+ substring (String.length pat) (String.length s) s
  else match s with
       | EmptyString => EmptyString
       | String c s' => String c (replace_first pat rep s')
       end.

(** A row of the [accounts] table, as the column names to their values. *)
Definition account_row : Type := gmap string string.

(** [Accounts.create(capability, invocation)] with [capability.nb.account],
    [capability.with], [capability.nb.identity] and
    [invocation.issuer.did()]: [db.insert] adds the row. *)
Definition create (account product identity agent : string) (table : list account_row)
  : list account_row :=
  table ++ [<["did" := account]> (<["product" := product]>
             (<["email" := replace_first "mailto:" "" identity]>
               {[ "agent" := agent ]}))].

(** The object [Accounts.get] returns; an absent column reads [undefined]. *)
Record account := mkAccount {
  acc_did : option string;
  acc_agent : option string;
  acc_email : option string;
  acc_product : option string;
  acc_updated_at : option string;
  acc_inserted_at : option string
}.

(** [Accounts.get(did)]: [fetchOne] with [did=?1]. *)
Definition get (did : string) (table : list account_row) : option account :=
  match List.find (fun r => if decide (r !! "did" = Some did) then true else false) table with
  | None => None
  | Some results =>
      Some (mkAccount (results !! "did") (results !! "agent") (results !! "email")
              (results !! "product") (results !! "update_at") (results !! "inserted_at"))
  end.

(** An example codec over the delegations above: a CAR of [n] delegations
    is [n] zero bytes and decodes to [n] copies of [ex_login]. *)
#[export] Instance ex_codec : Codec delegation := {
  delegation_cid := cid;
  delegation_audience := audience;
  delegation_issuer := issuer;
  delegationsToBytes ds := repeat Byte.x00 (length ds);
  bytesToDelegations b := repeat ex_login (length b);
  delegationToString := cid
}.

(** Example rows and e-mail key. *)
Definition ex_row_login : row := mkRow "bafylogin" ex_agent ex_account.
Definition ex_row_add : row := mkRow "bafyadd" ex_agent ex_space.
Definition ex_email : string := "mailto:alice@web.mail".

(** A string satisfies a [Text.match] constraint. *)
Definition text_ok (c : text_constraint) (s : string) : bool :=
  match c with
  | TExact x => String.eqb s x
  | TGlob g => glob g s
  end.

(* ================================================================== *)
(** * Properties of the specification *)

(** C3 (corrected): an unexpired direct grant of [A] to [X] on [S] is
    found by a query for [{audience: X, can: {A: []}}], as a record for
    [S] citing the grant, provided the grant's issuer is not a
    [did:mailto:] DID or an unexpired attestation of the grant to [X] is in
    the set. Without that proviso the grant is not found
    ([find_complete_explicit_cex]). *)
Theorem find_complete_explicit (db : list delegation) (now : Z) (g : delegation)
  (k : capability) (X S A : string) :
  In g db -> In k (capabilities g) -> cap_can k = A -> cap_with k = S ->
  audience g = X -> unexpired now g = true ->
  (is_mailto (issuer g) = false \/ exists a, In a db /\ attests a g X now) ->
  exists r, In r (find db now (mkSelector (TExact X) [A] None None)) /\
    authority r = X /\ subject r = S /\ In (cid g) (auth_proofs r).
Proof.
  intros Hg Hk <- <- <- U Att.
  apply In_nth_error in Hk as (i & Hi).
  set (sel := mkSelector (TExact (audience g)) [cap_can k] None None).
  set (th0 := [(0, SStr (cap_with k)); (1, SStr (audience g)); (2, SStr (issuer g));
               (3, SStr (cap_can k)); (4, SLink (cid g)); (6, SCap (cid g) i);
               (7, expiration_scalar g)]).
  assert (T0 : forall th, lookup_env 0 th = Some (SStr (cap_with k)) ->
            sat (build_index db) th (text_match (Var 0) (default_subject sel))).
  { intros th L; simpl; exists (cap_with k), "*"; split; [exact L|].
    split; [reflexivity | apply glob_star]. }
  assert (T1 : forall th, lookup_env 1 th = Some (SStr (audience g)) ->
            sat (build_index db) th (text_match (Var 1) (sel_audience sel))).
  { intros th L; simpl; exists (SStr (audience g)); split; [reflexivity | exact L]. }
  destruct Att as [M | (a & Ha & Aa & Ua & kk & Hkk & K1 & K2)].
  - destruct (single_found db now sel (cap_can k) th0 g i k) as (r & ? & ? & ? & ? & _);
      try reflexivity; auto using glob_refl.
    exists r; auto.
  - apply In_nth_error in Hkk as (j & Hj).
    set (th := (5, SLink (cid a)) :: (14, SCap (cid a) j) :: (15, SStr (issuer a)) ::
               (16, expiration_scalar a) :: th0).
    destruct (single_found db now sel (cap_can k) th g i k) as (r & ? & ? & ? & ? & _);
      try reflexivity; auto using glob_refl.
    + right; exists a, j, kk; repeat split; auto.
    + exists r; auto.
Qed.


(** C4 (corrected): two unexpired grants of [A1] and [A2] to [X] on the
    same resource [S] give, for a query requesting both abilities, exactly
    one record for the pair [(X, S)], listing both abilities and citing
    both grants, provided each grant's issuer is not a [did:mailto:] DID or
    an unexpired attestation of it to [X] is in the set (without it a
    mailto-issued grant is cited by no record,
    [find_groups_pair_cex]). *)
Theorem find_groups_pair (db : list delegation) (now : Z) (p1 p2 : delegation)
  (k1 k2 : capability) (X S A1 A2 : string) :
  cid p1 <> cid p2 -> A1 <> A2 ->
  In p1 db -> In p2 db -> In k1 (capabilities p1) -> In k2 (capabilities p2) ->
  cap_can k1 = A1 -> cap_can k2 = A2 -> cap_with k1 = S -> cap_with k2 = S ->
  audience p1 = X -> audience p2 = X ->
  unexpired now p1 = true -> unexpired now p2 = true ->
  (is_mailto (issuer p1) = false \/ exists a, In a db /\ attests a p1 X now) ->
  (is_mailto (issuer p2) = false \/ exists a, In a db /\ attests a p2 X now) ->
  exists r, In r (find db now (mkSelector (TExact X) [A1; A2] None None)) /\
    authority r = X /\ subject r = S /\ In A1 (can r) /\ In A2 (can r) /\
    In (cid p1) (auth_proofs r) /\ In (cid p2) (auth_proofs r) /\
    forall r', In r' (find db now (mkSelector (TExact X) [A1; A2] None None)) ->
      authority r' = X -> subject r' = S -> r' = r.
Proof.
  intros _ _ Hp1 Hp2 Hk1 Hk2 <- <- <- W2 <- Au2 U1 U2 Att1 Att2.
  apply In_nth_error in Hk1 as (i1 & Hi1); apply In_nth_error in Hk2 as (i2 & Hi2).
  set (sel := mkSelector (TExact (audience p1)) [cap_can k1; cap_can k2] None None).
  set (base := [(0, SStr (cap_with k1)); (1, SStr (audience p1));
                (2, SStr (issuer p1)); (3, SStr (cap_can k1));
                (4, SLink (cid p1)); (10, SCap (cid p1) i1); (11, expiration_scalar p1);
                (6, SStr (issuer p2)); (7, SStr (cap_can k2)); (8, SLink (cid p2));
                (21, SCap (cid p2) i2); (22, expiration_scalar p2)]).
  assert (Ex : exists r, In r (find db now sel) /\ authority r = audience p1 /\
    subject r = cap_with k1 /\ In (cid p1) (auth_proofs r) /\
    In (cid p2) (auth_proofs r) /\ In (cap_can k1) (can r) /\ In (cap_can k2) (can r)).
  { destruct Att1 as [M1 | (a1 & Ha1 & Aa1 & Ua1 & kk1 & Hkk1 & K11 & K12)];
      [| apply In_nth_error in Hkk1 as (j1 & Hj1)];
    (destruct Att2 as [M2 | (a2 & Ha2 & Aa2 & Ua2 & kk2 & Hkk2 & K21 & K22)];
      [| apply In_nth_error in Hkk2 as (j2 & Hj2)]);
    [ apply (double_found db now sel _ _ base p1 i1 k1 p2 i2 k2)
    | apply (double_found db now sel _ _ (att_bind 9 29 30 31 (Some (a2, j2)) ++ base)
               p1 i1 k1 p2 i2 k2)
    | apply (double_found db now sel _ _ (att_bind 5 18 19 20 (Some (a1, j1)) ++ base)
               p1 i1 k1 p2 i2 k2)
    | apply (double_found db now sel _ _ (att_bind 5 18 19 20 (Some (a1, j1)) ++
               att_bind 9 29 30 31 (Some (a2, j2)) ++ base) p1 i1 k1 p2 i2 k2) ];
    try reflexivity; try assumption; try congruence; try apply glob_refl;
    try attested_tac.
    all: simpl; first
      [ exists (cap_with k1), "*"; split; [reflexivity|]; split; [reflexivity|];
        apply glob_star
      | exists (SStr (audience p1)); split; reflexivity ]. }
  destruct Ex as (r & Hr & R1 & R2 & R3 & R4 & R5 & R6).
  exists r; repeat split; auto.
  intros r' Hr' E1 E2; unfold find in Hr, Hr'.
  apply (pairs_unique_eq _ r' r (group_pairs_unique _) Hr' Hr); congruence.
Qed.

(** C2: the implicit matcher accepts a delegation [d] iff one of its
    capabilities has resource ["ucan:*"] and the selected ability, [d] has
    the selected audience and issuer and is unexpired at the selected time,
    and either its issuer is the subject or it carries a proof [p] that is
    an explicit delegation of the ability on the subject to [d]'s issuer
    (unexpired at that time, as the explicit matcher requires). The chain
    is one level deep: when the issuer is not the subject and the subject
    is not ["ucan:*"] itself, a delegation whose proofs only forward
    ["ucan:*"] is not accepted. *)
Theorem implicit_iff (db : list delegation) (d : delegation) (subj can : string) (t : Z)
  (aud iss : string) :
  wf_db db -> In d db ->
  (implicit_accepts db d subj can t aud iss <->
   (exists k, In k (capabilities d) /\ cap_with k = "ucan:*" /\ cap_can k = can) /\
   audience d = aud /\ issuer d = iss /\ unexpired t d = true /\
   (issuer d = subj \/
    exists p kp, In p db /\ In (cid p) (proofs d) /\ In kp (capabilities p) /\
      cap_with kp = subj /\ cap_can kp = can /\ audience p = issuer d /\
      unexpired t p = true)) /\
  (issuer d <> subj -> subj <> "ucan:*" ->
   (forall p kp, In p db -> In (cid p) (proofs d) -> In kp (capabilities p) ->
      cap_can kp = can -> cap_with kp = "ucan:*") ->
   ~ implicit_accepts db d subj can t aud iss).
Proof.
  intros Hwf Hd.
  assert (Iff : implicit_accepts db d subj can t aud iss <->
   (exists k, In k (capabilities d) /\ cap_with k = "ucan:*" /\ cap_can k = can) /\
   audience d = aud /\ issuer d = iss /\ unexpired t d = true /\
   (issuer d = subj \/
    exists p kp, In p db /\ In (cid p) (proofs d) /\ In kp (capabilities p) /\
      cap_with kp = subj /\ cap_can kp = can /\ audience p = issuer d /\
      unexpired t p = true)).
  { unfold implicit_accepts; rewrite implicit_shape; cbn [fst]; split.
    - intros H; destruct (eval _ _ []) as [|e' l] eqn:E; [congruence|].
      assert (He : In e' (eval (build_index db) (im_clause (Const (SLink (cid d)))
        (Const (SStr subj)) (Const (SStr can)) (Const (SInt t)) (Const (SStr aud))
        (Const (SStr iss)) (Var 0) (Var (1 + 0)) (Var (2 + 0)) (Var (3 + 0))
        (Var (4 + 0)) (Var (5 + 0))) [])) by (rewrite E; left; reflexivity).
      apply im_sound in He as (dd & k & Hdd & Hk & Kw & R1 & R2 & R3 & U & R4 & R5);
        [|exact Hwf].
      simpl in R1, R2, R3, R4; injection R1 as R1; injection R2 as ->;
        injection R3 as ->; injection R4 as ->.
      assert (dd = d) as -> by (apply (wf_cid db); auto).
      split; [exists k; auto|]; split; [reflexivity|]; split; [reflexivity|].
      split; [exact U|].
      destruct R5 as [R5 | (pd & kp & Q1 & Q2 & Q3 & Q4 & Q5 & Q6 & Q7)];
        [left; simpl in R5; congruence | right].
      simpl in Q7; injection Q7 as ->; exists pd, kp; repeat split; auto.
    - intros ((k & Hk & Kw & <-) & <- & <- & U & Hs).
      apply In_nth_error in Hk as (i & Hi).
      destruct Hs as [<- | (p & kp & Hp & Hpp & Hkp & <- & Kc & Ap & Up)].
      + apply (eval_nonempty _ [(1, SCap (cid d) i); (2, expiration_scalar d)]);
          [| apply implicit_ready].
        unfold im_clause, capability_match, dm_clause, issuedBy; cbn [sat].
        split; [split; [split|] | left].
        * msat; eapply fact_cap_intro; eauto using cap_facts_can.
        * msat; rewrite <- Kw; eapply fact_cap_intro; eauto using cap_facts_with.
        * repeat split.
          -- msat; eapply fact_cap_intro; eauto using cap_facts_capability.
          -- msat; apply fact_audience_intro; exact Hd.
          -- msat; apply fact_issuer_intro; exact Hd.
          -- msat; apply fact_expiration_intro; exact Hd.
          -- do 2 eexists; split; [reflexivity|]; split; [reflexivity|].
             rewrite scalar_ge_expiration; exact U.
        * msat; apply fact_issuer_intro; exact Hd.
      + apply In_nth_error in Hkp as (ip & Hip).
        apply (eval_nonempty _ [(0, SLink (cid p)); (1, SCap (cid d) i);
                                (2, expiration_scalar d); (3, SStr (issuer p));
                                (4, SCap (cid p) ip); (5, expiration_scalar p)]);
          [| apply implicit_ready].
        unfold im_clause, capability_match, dm_clause, issuedBy, hasProof, ex_clause;
          cbn [sat].
        split; [split; [split|] | right].
        * msat; apply (fact_cap_intro db d i k); auto using cap_facts_can.
        * msat; rewrite <- Kw; apply (fact_cap_intro db d i k); auto using cap_facts_with.
        * repeat split.
          -- msat; apply (fact_cap_intro db d i k); auto using cap_facts_capability.
          -- msat; apply fact_audience_intro; exact Hd.
          -- msat; apply fact_issuer_intro; exact Hd.
          -- msat; apply fact_expiration_intro; exact Hd.
          -- do 2 eexists; split; [reflexivity|]; split; [reflexivity|].
             rewrite scalar_ge_expiration; exact U.
        * repeat split.
          -- msat; apply fact_proof_intro; assumption.
          -- msat; rewrite <- Kc; apply (fact_cap_intro db p ip kp); auto using cap_facts_can.
          -- msat; apply (fact_cap_intro db p ip kp); auto using cap_facts_with.
          -- msat; apply (fact_cap_intro db p ip kp); auto using cap_facts_capability.
          -- msat; rewrite <- Ap; apply fact_audience_intro; exact Hp.
          -- msat; apply fact_issuer_intro; exact Hp.
          -- msat; apply fact_expiration_intro; exact Hp.
          -- do 2 eexists; split; [reflexivity|]; split; [reflexivity|].
             rewrite scalar_ge_expiration; exact Up. }
  split; [exact Iff|].
  intros Ns Nu Fw H; apply Iff in H as (_ & _ & _ & _ & [H | (p & kp & Hp & Hpp & Hkp & W & C & _)]).
  - exact (Ns H).
  - apply Nu; rewrite <- W; exact (Fw p kp Hp Hpp Hkp C).
Qed.

(** C1 (corrected): for a selector with time [t], every cid cited by a
    record of [find] is a delegation of the set unexpired at [t]; when its
    issuer is a [did:mailto:] DID it is attested at [t] to the record's
    audience by a delegation the record also cites, or it is itself the
    attestation of a cited delegation. An attestation's issuer is not
    constrained, so an attestation issued by the account itself is cited
    without any attestation of its own ([find_sound_cex]). *)
Theorem find_sound (db : list delegation) (now t : Z) (sel : selector)
  (r : authorization) (c : string) :
  wf_db db -> sel_time sel = Some t -> In r (find db now sel) -> In c (auth_proofs r) ->
  exists d, In d db /\ cid d = c /\ unexpired t d = true /\
    (is_mailto (issuer d) = true ->
     (exists a, In a db /\ In (cid a) (auth_proofs r) /\ attests a d (authority r) t) \/
     (exists p, In p db /\ In (cid p) (auth_proofs r) /\ attests d p (authority r) t)).
Proof.
  intros Hwf Ht Hr Hc.
  pose proof (find_cited_ok db now sel r c Hwf Hr Hc) as H.
  unfold query_time in H; rewrite Ht in H; exact H.
Qed.

(** C5: the explicit matcher accepts a delegation with finite expiration
    [te] for its own audience, issuer and capability exactly at the times
    [t <= te], and at every time when it has no expiration; and a
    delegation with finite expiration [te] is cited by no record of a
    query whose time is after [te]. *)
Theorem expiration_boundary (db : list delegation) (d : delegation) (k : capability)
  (t : Z) :
  wf_db db -> In d db -> In k (capabilities d) ->
  (explicit_accepts db d (audience d) (issuer d) (cap_with k) (cap_can k) t <->
   match expiration d with Some te => (t <= te)%Z | None => True end) /\
  (forall now sel r,
     match expiration d with Some te => (te < query_time now sel)%Z | None => False end ->
     In r (find db now sel) -> ~ In (cid d) (auth_proofs r)).
Proof.
  intros Hwf Hd Hk; split.
  - rewrite <- unexpired_iff; unfold explicit_accepts; rewrite explicit_shape;
      cbn [fst]; split.
    + intros H; destruct (eval _ _ []) as [|e' l] eqn:E; [congruence|].
      assert (He : In e' (eval (build_index db) (ex_clause (Const (SLink (cid d)))
        (Var 0) (Const (SStr (audience d))) (Const (SStr (issuer d))) (Var (1 + 0))
        (Const (SStr (cap_with k))) (Const (SStr (cap_can k))) (Const (SInt t))) []))
        by (rewrite E; left; reflexivity).
      apply ex_sound in He as (dd & kk & Hdd & _ & R1 & _ & _ & U & _); [|exact Hwf].
      simpl in R1; injection R1 as R1.
      assert (dd = d) as -> by (apply (wf_cid db); auto).
      exact U.
    + intros U; apply In_nth_error in Hk as (i & Hi).
      apply (eval_nonempty _ [(0, SCap (cid d) i); (1, expiration_scalar d)]);
        [| apply explicit_ready].
      unfold ex_clause, capability_match, dm_clause; cbn [sat].
      split; [split|].
      * msat; apply (fact_cap_intro db d i k); auto using cap_facts_can.
      * msat; apply (fact_cap_intro db d i k); auto using cap_facts_with.
      * repeat split.
        -- msat; apply (fact_cap_intro db d i k); auto using cap_facts_capability.
        -- msat; apply fact_audience_intro; exact Hd.
        -- msat; apply fact_issuer_intro; exact Hd.
        -- msat; apply fact_expiration_intro; exact Hd.
        -- do 2 eexists; split; [reflexivity|]; split; [reflexivity|].
           rewrite scalar_ge_expiration; exact U.
  - intros now sel r Ht Hr Hc.
    destruct (find_cited_ok db now sel r (cid d) Hwf Hr Hc) as (d' & Hd' & E & U & _).
    assert (d' = d) as -> by (apply (wf_cid db); auto).
    apply unexpired_iff in U; destruct (expiration d); [lia | contradiction].
Qed.

(** C6: the query has one proof group per requested ability, carrying it
    as [need], and a single group without [need] when none is requested;
    the [where] list holds one clause per group followed by the subject and
    audience constraints. The clause of a group has exactly the solutions
    of the [match] of its proof followed by the attestation clause, where a
    group with a [need] in addition keeps only the matches whose bound
    ability glob-matches [need], and a group without [need] keeps every
    match, whatever its ability. In every solution of the query, the
    group's ability variable is bound to the ability of a capability of
    the matched proof, which glob-matches the group's [need] when there is
    one. *)
Theorem query_groups (now : Z) (sel : selector) :
  map ps_need (q_proofs (fst (query now sel 0))) =
    match sel_can sel with [] => [None] | ks => map Some ks end /\
  length (q_where (fst (query now sel 0))) = 2 + length (q_proofs (fst (query now sel 0))) /\
  (forall i ps, nth_error (q_proofs (fst (query now sel 0))) i = Some ps ->
   exists n,
     nth_error (q_where (fst (query now sel 0))) i =
       Some (fst (group_clause (Var 0) (Var 1) (Const (SInt (query_time now sel))) ps n)) /\
     forall F e e',
       In e' (eval F (fst (group_clause (Var 0) (Var 1)
                             (Const (SInt (query_time now sel))) ps n)) e) <->
       exists e1,
         In e1 (eval F (fst (match_ (ps_proof ps) (Some (Var 1)) (Some (Var 0))
                   (Some (ps_issuer ps)) (Some (ps_can ps))
                   (Some (Const (SInt (query_time now sel)))) n)) e) /\
         match ps_need ps with
         | None => True
         | Some nd => exists c, resolve (ps_can ps) e1 = Some (SStr c) /\ glob c nd = true
         end /\
         In e' (eval F (Or (Not (Glob (ps_issuer ps) (Const (SStr mailto_pattern))))
                   (fst (attestation_match (ps_attestation ps) (ps_proof ps)
                          (Const (SInt (query_time now sel))) (Var 1) (8 + n)))) e1)) /\
  (forall db e i ps, wf_db db -> In e (solutions db now sel) ->
   nth_error (q_proofs (fst (query now sel 0))) i = Some ps ->
   exists d k, In d db /\ In k (capabilities d) /\
     resolve (ps_proof ps) e = Some (SLink (cid d)) /\
     resolve (ps_can ps) e = Some (SStr (cap_can k)) /\
     (forall nd, ps_need ps = Some nd -> glob (cap_can k) nd = true)).
Proof.
  rewrite query_shape; cbn [q_proofs q_where]; split; [|split; [|split]].
  - rewrite map_need_groups; reflexivity.
  - rewrite length_app, group_clauses_length; simpl; lia.
  - intros i ps H.
    assert (L : i < length (group_clauses (Var 0) (Var 1)
                  (Const (SInt (query_time now sel))) (proof_groups (query_needs sel) 2)
                  (4 * length (query_needs sel) + 2))).
    { rewrite group_clauses_length; apply nth_error_Some; congruence. }
    rewrite nth_error_app1 by exact L.
    rewrite (group_clauses_nth _ _ _ _ _ i ps H).
    eexists; split; [reflexivity|].
    intros F e e'; rewrite group_clause_fst, match_shape, attestation_shape; cbn [fst].
    unfold match_part, need_clause; rewrite in_eval_and.
    destruct (ps_need ps) as [nd|]; split.
    + intros (e2 & H2 & H3); apply in_eval_and in H2 as (e1 & H1 & G).
      apply in_eval_glob in G as (-> & x & pat & Rx & Rp & Gp).
      simpl in Rx; injection Rx as <-; exists e1; eauto.
    + intros (e1 & H1 & (c & Rc & Gc) & H3); exists e1; split; [|exact H3].
      apply in_eval_and; exists e1; split; [exact H1|].
      apply in_eval_glob; split; [reflexivity|]; exists nd, c; auto.
    + intros (e1 & H1 & H3); exists e1; auto.
    + intros (e1 & H1 & _ & H3); exists e1; auto.
  - intros db e i ps Hwf He H.
    unfold solutions in He; rewrite query_shape in He; cbn [q_where] in He.
    assert (Hc : In (fst (group_clause (Var 0) (Var 1) (Const (SInt (query_time now sel))) ps
                       (11 * i + (4 * length (query_needs sel) + 2))))
                   (group_clauses (Var 0) (Var 1) (Const (SInt (query_time now sel)))
                      (proof_groups (query_needs sel) 2) (4 * length (query_needs sel) + 2)
                    ++ [text_match (Var 0) (default_subject sel);
                        text_match (Var 1) (sel_audience sel)])).
    { apply in_or_app; left; eapply nth_error_In; apply group_clauses_nth; exact H. }
    destruct (eval_all_each _ _ _ _ He _ Hc) as (e0 & e2 & H2 & X).
    rewrite group_clause_fst in H2; apply in_eval_and in H2 as (e3 & H3 & H5).
    pose proof (eval_extends _ _ _ _ H5) as X3.
    unfold match_part, need_clause in H3.
    assert (M : forall e4, In e4 (eval (build_index db)
                  (Or (ex_clause (ps_proof ps) (Var (11 * i + (4 * length (query_needs sel) + 2)))
                         (Var 1) (ps_issuer ps)
                         (Var (1 + (11 * i + (4 * length (query_needs sel) + 2))))
                         (Var 0) (ps_can ps) (Const (SInt (query_time now sel))))
                      (im_clause (ps_proof ps) (Var 0) (ps_can ps)
                         (Const (SInt (query_time now sel))) (Var 1) (ps_issuer ps)
                         (Var (2 + (11 * i + (4 * length (query_needs sel) + 2))))
                         (Var (3 + (11 * i + (4 * length (query_needs sel) + 2))))
                         (Var (4 + (11 * i + (4 * length (query_needs sel) + 2))))
                         (Var (5 + (11 * i + (4 * length (query_needs sel) + 2))))
                         (Var (6 + (11 * i + (4 * length (query_needs sel) + 2))))
                         (Var (7 + (11 * i + (4 * length (query_needs sel) + 2)))))) e0) ->
                extends e4 e ->
                exists d k, In d db /\ In k (capabilities d) /\
                  resolve (ps_proof ps) e = Some (SLink (cid d)) /\
                  resolve (ps_can ps) e4 = Some (SStr (cap_can k)) /\
                  resolve (ps_can ps) e = Some (SStr (cap_can k))).
    { intros e4 H4 X4; apply in_eval_or in H4 as [H4 | H4].
      - apply (ex_sound db Hwf) in H4 as (d & k & Hd & Hk & R1 & _ & _ & _ & R2 & _).
        exists d, k; repeat split; auto; eapply resolve_extends; eauto.
      - apply (im_sound db Hwf) in H4 as (d & k & Hd & Hk & _ & R1 & _ & _ & _ & R2 & _).
        exists d, k; repeat split; auto; eapply resolve_extends; eauto. }
    assert (X3e : extends e3 e) by (eapply extends_trans; eauto).
    destruct (ps_need ps) as [nd|].
    + apply in_eval_and in H3 as (e4 & H4 & G).
      apply in_eval_glob in G as (-> & x & pat & Rx & Rp & Gp).
      destruct (M e4 H4 X3e) as (d & k & Hd & Hk & R1 & R2 & R3).
      exists d, k; repeat split; auto.
      intros nd' E; injection E as <-; simpl in Rx; injection Rx as <-.
      rewrite R2 in Rp; injection Rp as <-; exact Gp.
    + destruct (M e3 H3 X3e) as (d & k & Hd & Hk & R1 & R2 & R3).
      exists d, k; repeat split; auto; discriminate.
Qed.

Section StoreProperties.
Context {D : Type} `{Codec D}.

(** C7 (code bug): when the CAR bytes stored for a row decode to a number
    of delegations other than one, [#rowToDelegation] fails, and so does
    the generator reading that row before yielding it, with a plain
    [Error] (name ["Error"]), not with the [UnexpectedDelegation] class
    that documents this case. *)
Theorem rowToDelegation_count_error (r : row) (bucket : gmap string (list Byte.byte))
  (b : list Byte.byte) (rs : list row) :
  bucket !! carFileKeyer (row_cid r) = Some b ->
  length (bytesToDelegations b) <> 1 ->
  rowToDelegation (D:=D) r bucket =
    Err (new_Error ("expected 1 delegation in CAR, but got " +:+
                    string_of_nat (length (bytesToDelegations b)))) /\
  yield_rows (D:=D) (r :: rs) bucket =
    ([], Some (new_Error ("expected 1 delegation in CAR, but got " +:+
                          string_of_nat (length (bytesToDelegations b))))) /\
  err_name (new_Error "") <> err_name (UnexpectedDelegation "").
Proof.
  intros Hb Hn.
  assert (R : rowToDelegation (D:=D) r bucket =
    Err (new_Error ("expected 1 delegation in CAR, but got " +:+
                    string_of_nat (length (bytesToDelegations b))))).
  { unfold rowToDelegation; rewrite Hb.
    destruct (Nat.eqb_spec (length (bytesToDelegations b)) 1); [contradiction|].
    reflexivity. }
  split; [exact R|]; split; [simpl; rewrite R; reflexivity | discriminate].
Qed.

(** C8: on a store whose database cannot stream, the async iterator yields
    nothing and throws an error named ["NotImplementedError"]. *)
Theorem asyncIterator_no_stream (st : store) :
  canStream st = false ->
  exists e, asyncIterator (D:=D) st = ([], Some e) /\ err_name e = "NotImplementedError".
Proof.
  intros Hs; unfold asyncIterator; rewrite Hs; simpl.
  eexists; split; reflexivity.
Qed.

(** C9: [putMany] of no delegations returns without error and leaves the
    bucket and the table unchanged. *)
Theorem putMany_empty (st : store) :
  putMany (D:=D) [] st = (Ok tt, st).
Proof. reflexivity. Qed.

(** C10: after [saveDelegation email d], [getDelegations email] is the
    previously stored list (empty when there was none) followed by the
    encoding of [d]; the lists stored for other emails are unchanged. *)
Theorem saveDelegation_appends (email : string) (d : D) (kv : gmap string (list string)) :
  getDelegations email (saveDelegation email d kv) =
    Some (default [] (getDelegations email kv) ++ [delegationToString d]) /\
  (forall email', email' <> email ->
     getDelegations email' (saveDelegation email d kv) = getDelegations email' kv).
Proof.
  unfold getDelegations, saveDelegation.
  destruct (kv !! email) as [accs|] eqn:E; simpl; split.
  - apply lookup_insert_eq.
  - intros e' Ne; apply lookup_insert_ne; congruence.
  - apply lookup_insert_eq.
  - intros e' Ne; apply lookup_insert_ne; congruence.
Qed.

End StoreProperties.

(* ------------------------------------------------------------------ *)
(** * Instances and counterexamples *)

Ltac wf_tac := unfold wf_db; simpl; repeat constructor; simpl; intuition discriminate.

(** [find_sound] on the login grant of the account, attested by the
    service. *)
Lemma find_sound_witness :
  exists d, In d [ex_login; ex_att] /\ cid d = "bafylogin" /\ unexpired 100 d = true /\
    (is_mailto (issuer d) = true ->
     (exists a, In a [ex_login; ex_att] /\ In (cid a) (auth_proofs ex_login_auth) /\
                attests a d (authority ex_login_auth) 100) \/
     (exists p, In p [ex_login; ex_att] /\ In (cid p) (auth_proofs ex_login_auth) /\
                attests d p (authority ex_login_auth) 100)).
Proof.
  refine (find_sound [ex_login; ex_att] 0 100 ex_login_sel ex_login_auth "bafylogin"
            _ _ _ _).
  - wf_tac.
  - reflexivity.
  - vm_compute; left; reflexivity.
  - simpl; left; reflexivity.
Defined.

(** With an attestation issued by the account itself, the record found cites
    that attestation, a [did:mailto:] issued delegation no cited delegation
    attests. *)
Lemma find_sound_cex :
  wf_db [ex_login; ex_self_att] /\
  In ex_login_auth (find [ex_login; ex_self_att] 0 ex_login_sel) /\
  In (cid ex_self_att) (auth_proofs ex_login_auth) /\
  is_mailto (issuer ex_self_att) = true /\
  ~ (exists a, In a [ex_login; ex_self_att] /\ In (cid a) (auth_proofs ex_login_auth) /\
               attests a ex_self_att (authority ex_login_auth) 100).
Proof.
  split; [wf_tac|]; split; [vm_compute; left; reflexivity|].
  split; [simpl; right; left; reflexivity|]; split; [vm_compute; reflexivity|].
  intros (a & Ha & _ & _ & _ & k & Hk & _ & Hn).
  simpl in Ha; destruct Ha as [<- | [<- | []]]; simpl in Hk;
    destruct Hk as [<- | []]; simpl in Hn; try contradiction;
    destruct Hn as [E | []]; discriminate.
Qed.

(** [implicit_iff] on the login grant, issued by the subject itself, and
    on a [ucan:*] forward whose cited proof delegates the ability on the
    subject. *)
Lemma implicit_iff_witness :
  implicit_accepts [ex_login] ex_login ex_account "*" 100 ex_agent ex_account /\
  implicit_accepts [ex_add; ex_fw] ex_fw ex_space "store/add" 100 ex_service ex_agent.
Proof.
  split.
  - refine (proj2 (proj1 (implicit_iff [ex_login] ex_login ex_account "*" 100
                            ex_agent ex_account _ _)) _).
    + wf_tac.
    + left; reflexivity.
    + split; [exists (mkCapability "*" "ucan:*" []); split; [left|split]; reflexivity|].
      split; [reflexivity|]; split; [reflexivity|]; split; [reflexivity|].
      left; reflexivity.
  - refine (proj2 (proj1 (implicit_iff [ex_add; ex_fw] ex_fw ex_space "store/add" 100
                            ex_service ex_agent _ _)) _).
    + wf_tac.
    + right; left; reflexivity.
    + split; [exists (mkCapability "store/add" "ucan:*" []); split; [left|split]; reflexivity|].
      split; [reflexivity|]; split; [reflexivity|]; split; [reflexivity|].
      right; exists ex_add, (mkCapability "store/add" ex_space []).
      split; [left; reflexivity|]; split; [left; reflexivity|];
        split; [left; reflexivity|].
      repeat split; reflexivity.
Defined.

(** [find_complete_explicit] on a grant issued by the space key. *)
Lemma find_complete_explicit_witness :
  exists r, In r (find [ex_add] 100 (mkSelector (TExact ex_agent) ["store/add"] None None)) /\
    authority r = ex_agent /\ subject r = ex_space /\ In "bafyadd" (auth_proofs r).
Proof.
  refine (find_complete_explicit [ex_add] 100 ex_add (mkCapability "store/add" ex_space [])
            ex_agent ex_space "store/add" _ _ _ _ _ _ _).
  - left; reflexivity.
  - left; reflexivity.
  - reflexivity.
  - reflexivity.
  - reflexivity.
  - reflexivity.
  - left; vm_compute; reflexivity.
Defined.

(** An unexpired direct grant issued by the account, without attestation,
    is not found. *)
Lemma find_complete_explicit_cex :
  In ex_madd [ex_madd] /\ In (mkCapability "store/add" ex_space []) (capabilities ex_madd) /\
  audience ex_madd = ex_agent /\ unexpired 100 ex_madd = true /\
  find [ex_madd] 100 (mkSelector (TExact ex_agent) ["store/add"] None None) = [].
Proof.
  split; [left; reflexivity|]; split; [left; reflexivity|].
  split; [reflexivity|]; split; [reflexivity|].
  vm_compute; reflexivity.
Defined.

(** [find_groups_pair] on the [store/add] and [store/remove] grants of the
    space key. *)
Lemma find_groups_pair_witness :
  exists r, In r (find [ex_add; ex_remove] 100
                   (mkSelector (TExact ex_agent) ["store/add"; "store/remove"] None None)) /\
    authority r = ex_agent /\ subject r = ex_space /\ In "store/add" (can r) /\
    In "store/remove" (can r) /\ In "bafyadd" (auth_proofs r) /\
    In "bafyremove" (auth_proofs r) /\
    forall r', In r' (find [ex_add; ex_remove] 100
                       (mkSelector (TExact ex_agent) ["store/add"; "store/remove"] None None)) ->
      authority r' = ex_agent -> subject r' = ex_space -> r' = r.
Proof.
  refine (find_groups_pair [ex_add; ex_remove] 100 ex_add ex_remove
            (mkCapability "store/add" ex_space []) (mkCapability "store/remove" ex_space [])
            ex_agent ex_space "store/add" "store/remove"
            _ _ _ _ _ _ _ _ _ _ _ _ _ _ _ _).
  - discriminate.
  - discriminate.
  - left; reflexivity.
  - right; left; reflexivity.
  - left; reflexivity.
  - left; reflexivity.
  - reflexivity.
  - reflexivity.
  - reflexivity.
  - reflexivity.
  - reflexivity.
  - reflexivity.
  - reflexivity.
  - reflexivity.
  - left; vm_compute; reflexivity.
  - left; vm_compute; reflexivity.
Defined.

(** Two unexpired grants of the account, without attestation: no record. *)
Lemma find_groups_pair_cex :
  audience ex_madd = audience ex_mremove /\ unexpired 100 ex_madd = true /\
  unexpired 100 ex_mremove = true /\
  find [ex_madd; ex_mremove] 100
    (mkSelector (TExact ex_agent) ["store/add"; "store/remove"] None None) = [].
Proof.
  split; [reflexivity|]; split; [reflexivity|]; split; [reflexivity|].
  vm_compute; reflexivity.
Defined.

(** [expiration_boundary] on the [store/add] grant, expiring at 200,
    queried at 150. *)
Lemma expiration_boundary_witness :
  explicit_accepts [ex_add] ex_add ex_agent ex_space ex_space "store/add" 150.
Proof.
  refine (proj2 (proj1 (expiration_boundary [ex_add] ex_add
                          (mkCapability "store/add" ex_space []) 150 _ _ _)) _).
  - wf_tac.
  - left; reflexivity.
  - left; reflexivity.
  - simpl; lia.
Defined.

(** [query_groups] on the group of a query for [store/add], and on the
    solution of the login query: its proof is [ex_login], whose ability
    ["*"] the group's ability variable is bound to. *)
Lemma query_groups_witness :
  (exists n,
     nth_error (q_where (fst (query 0 (mkSelector (TExact ex_agent) ["store/add"] None None) 0)))
       0 = Some (fst (group_clause (Var 0) (Var 1) (Const (SInt 0))
                        (mkProofSelector (Var 2) (Var 3) (Var 4) (Var 5) (Some "store/add")) n))) /\
  (exists e, In e (solutions [ex_login; ex_att] 100 ex_login_sel) /\
   exists d k, In d [ex_login; ex_att] /\ In k (capabilities d) /\
     resolve (Var 4) e = Some (SLink (cid d)) /\
     resolve (Var 3) e = Some (SStr (cap_can k)) /\
     (forall nd, Some "*" = Some nd -> glob (cap_can k) nd = true)).
Proof.
  split.
  - destruct (proj1 (proj2 (proj2 (query_groups 0
                (mkSelector (TExact ex_agent) ["store/add"] None None))))
                0 (mkProofSelector (Var 2) (Var 3) (Var 4) (Var 5) (Some "store/add"))
                eq_refl) as (n & E & _).
    exists n; exact E.
  - exists (hd [] (solutions [ex_login; ex_att] 100 ex_login_sel)).
    split; [vm_compute; left; reflexivity|].
    exact (proj2 (proj2 (proj2 (query_groups 100 ex_login_sel)))
             [ex_login; ex_att] (hd [] (solutions [ex_login; ex_att] 100 ex_login_sel))
             0 (mkProofSelector (Var 2) (Var 3) (Var 4) (Var 5) (Some "*"))
             ltac:(wf_tac) ltac:(vm_compute; left; reflexivity) eq_refl).
Defined.

(** [rowToDelegation_count_error] on an empty CAR. *)
Lemma rowToDelegation_count_error_witness :
  rowToDelegation (D:=delegation) (mkRow "bafyadd" ex_agent ex_space)
    {[ "bafyadd.car" := [] ]} =
  Err (new_Error ("expected 1 delegation in CAR, but got " +:+
                  string_of_nat (length (bytesToDelegations (D:=delegation) [])))).
Proof.
  refine (proj1 (rowToDelegation_count_error (mkRow "bafyadd" ex_agent ex_space)
                   {[ "bafyadd.car" := [] ]} [] [] _ _)).
  - vm_compute; reflexivity.
  - simpl; lia.
Defined.

(** A row whose CAR holds no delegation: the error is not an
    [UnexpectedDelegation]. *)
Lemma rowToDelegation_count_cex :
  rowToDelegation (D:=delegation) (mkRow "bafyadd" ex_agent ex_space)
    {[ "bafyadd.car" := [] ]} =
    Err (new_Error "expected 1 delegation in CAR, but got 0") /\
  err_name (new_Error "expected 1 delegation in CAR, but got 0") <> "UnexpectedDelegation".
Proof. split; [vm_compute; reflexivity | discriminate]. Qed.

(** [asyncIterator_no_stream] on an empty store that cannot stream. *)
Lemma asyncIterator_no_stream_witness :
  exists e, asyncIterator (D:=delegation) (mkStore empty [] false) = ([], Some e) /\
            err_name e = "NotImplementedError".
Proof. refine (asyncIterator_no_stream (mkStore empty [] false) _); reflexivity. Defined.

(** [saveDelegation_appends] on an email with one stored delegation. *)
Lemma saveDelegation_appends_witness :
  getDelegations "mailto:alice@web.mail"
    (saveDelegation "mailto:alice@web.mail" ex_login {[ "mailto:alice@web.mail" := ["bafyadd"] ]}) =
  Some (["bafyadd"] ++ ["bafylogin"]).
Proof.
  refine (eq_trans (proj1 (saveDelegation_appends "mailto:alice@web.mail" ex_login
                             {[ "mailto:alice@web.mail" := ["bafyadd"] ]})) _).
  vm_compute; reflexivity.
Defined.

(* ================================================================== *)
(** * Further properties of the stores *)

Lemma str_length_app (a b : string) :
  String.length (a +:+ b) = String.length a + String.length b.
Proof. induction a as [|x a IH]; simpl; auto. Qed.

Lemma append_suffix_inj (a b s : string) : a +:+ s = b +:+ s -> a = b.
Proof.
  revert b; induction a as [|x a IH]; intros [|y b] E; simpl in E; auto.
  - apply (f_equal String.length) in E; rewrite !str_length_app in E; simpl in E; lia.
  - apply (f_equal String.length) in E; rewrite !str_length_app in E; simpl in E; lia.
  - injection E as -> E; f_equal; auto.
Qed.

Lemma carFileKeyer_inj (c1 c2 : string) : carFileKeyer c1 = carFileKeyer c2 -> c1 = c2.
Proof. apply append_suffix_inj. Qed.

Lemma nodup_snoc {A} (l : list A) (x : A) : List.NoDup l -> ~ In x l -> List.NoDup (l ++ [x]).
Proof.
  induction l as [|a l IH]; simpl; intros Hnd Hx; [constructor; [intros [] | constructor]|].
  inversion Hnd as [|? ? Ha Hnd']; subst; constructor.
  - rewrite in_app_iff; simpl; intuition.
  - apply IH; auto.
Qed.

Section StoreFacts.
Context {D : Type} `{Codec D}.

Lemma write_cons (b : gmap string (list Byte.byte)) (d : D) (ds : list D) :
  writeDelegations b (d :: ds) =
  writeDelegations (<[carFileKeyer (delegation_cid d) := delegationsToBytes [d]]> b) ds.
Proof. reflexivity. Qed.

Lemma write_other (ds : list D) (b : gmap string (list Byte.byte)) (k : string) :
  (forall d, In d ds -> carFileKeyer (delegation_cid d) <> k) ->
  writeDelegations b ds !! k = b !! k.
Proof.
  revert b; induction ds as [|d ds IH]; intros b Hk; [reflexivity|].
  rewrite write_cons, IH by (intros; apply Hk; right; auto).
  apply lookup_insert_ne, Hk; left; reflexivity.
Qed.

Lemma write_lookup (ds : list D) (b : gmap string (list Byte.byte)) (d : D) :
  List.NoDup (map delegation_cid ds) -> In d ds ->
  writeDelegations b ds !! carFileKeyer (delegation_cid d) = Some (delegationsToBytes [d]).
Proof.
  revert b; induction ds as [|d0 ds IH]; intros b Hnd Hd; [destruct Hd|].
  rewrite write_cons; simpl in Hnd; inversion Hnd as [|? ? Hn Hnd']; subst.
  destruct Hd as [<- | Hd]; [|apply IH; auto].
  rewrite write_other; [apply lookup_insert_eq|].
  intros d' Hd' E; apply carFileKeyer_inj in E; apply Hn; rewrite <- E; apply in_map; auto.
Qed.

(** Two buckets agree on the keys [ds] writes once [ds] is written. *)
Lemma write_same (ds : list D) (b1 b2 : gmap string (list Byte.byte)) (k : string) :
  (exists d, In d ds /\ carFileKeyer (delegation_cid d) = k) ->
  writeDelegations b1 ds !! k = writeDelegations b2 ds !! k.
Proof.
  revert b1 b2; induction ds as [|d ds IH]; intros b1 b2 (d' & Hd' & E); [destruct Hd'|].
  rewrite !write_cons.
  destruct (existsb (fun x => String.eqb (carFileKeyer (delegation_cid x)) k) ds) eqn:X.
  - apply existsb_exists in X as (x & Hx & Ex); apply String.eqb_eq in Ex.
    apply IH; eauto.
  - assert (N : forall x, In x ds -> carFileKeyer (delegation_cid x) <> k).
    { intros x Hx Ex; assert (existsb (fun x => String.eqb (carFileKeyer (delegation_cid x)) k)
        ds = true) by (apply existsb_exists; exists x; split; [exact Hx | apply String.eqb_eq; exact Ex]);
      congruence. }
    rewrite !write_other by exact N.
    destruct Hd' as [<- | Hd']; [subst k; rewrite !lookup_insert_eq; reflexivity|].
    exfalso; exact (N d' Hd' E).
Qed.

Lemma write_idempotent (ds : list D) (b : gmap string (list Byte.byte)) :
  writeDelegations (writeDelegations b ds) ds = writeDelegations b ds.
Proof.
  apply map_eq; intros k.
  destruct (existsb (fun x => String.eqb (carFileKeyer (delegation_cid x)) k) ds) eqn:X.
  - apply existsb_exists in X as (x & Hx & Ex); apply String.eqb_eq in Ex.
    apply write_same; eauto.
  - assert (N : forall x, In x ds -> carFileKeyer (delegation_cid x) <> k).
    { intros x Hx Ex; assert (existsb (fun x => String.eqb (carFileKeyer (delegation_cid x)) k)
        ds = true) by (apply existsb_exists; exists x; split; [exact Hx | apply String.eqb_eq; exact Ex]);
      congruence. }
    rewrite !write_other by exact N; reflexivity.
Qed.

End StoreFacts.

Lemma insert_rows_cons (t : list row) (v : row) (vs : list row) :
  insert_rows t (v :: vs) =
  insert_rows (if existsb (fun r => String.eqb (row_cid r) (row_cid v)) t then t else t ++ [v]) vs.
Proof. reflexivity. Qed.

Lemma existsb_cid (t : list row) (c : string) :
  existsb (fun r => String.eqb (row_cid r) c) t = true <-> exists r, In r t /\ row_cid r = c.
Proof.
  rewrite existsb_exists; split; intros (r & Hr & E); exists r; split; auto;
    apply String.eqb_eq; auto.
Qed.

Lemma insert_rows_prefix (t vs : list row) :
  exists nw, insert_rows t vs = t ++ nw /\ forall r, In r nw -> In r vs.
Proof.
  revert t; induction vs as [|v vs IH]; intros t; [exists []; rewrite app_nil_r; split; [reflexivity | intros _ []]|].
  rewrite insert_rows_cons; destruct (existsb _ t).
  - destruct (IH t) as (nw & E & Hn); exists nw; split; [exact E | intros; right; auto].
  - destruct (IH (t ++ [v])) as (nw & E & Hn); exists (v :: nw); split.
    + rewrite E, <- app_assoc; reflexivity.
    + intros r [<- | Hr]; [left; reflexivity | right; auto].
Qed.

Lemma insert_rows_nodup (t vs : list row) :
  List.NoDup (map row_cid t) -> List.NoDup (map row_cid (insert_rows t vs)).
Proof.
  revert t; induction vs as [|v vs IH]; intros t Hnd; [exact Hnd|].
  rewrite insert_rows_cons; destruct (existsb _ t) eqn:X; apply IH; [exact Hnd|].
  rewrite map_app; apply nodup_snoc; [exact Hnd|].
  intros Hin; apply in_map_iff in Hin as (r & E & Hr).
  assert (existsb (fun r => String.eqb (row_cid r) (row_cid v)) t = true)
    by (apply existsb_cid; eauto); congruence.
Qed.

Lemma insert_rows_has (t vs : list row) (v : row) :
  In v vs -> exists r, In r (insert_rows t vs) /\ row_cid r = row_cid v.
Proof.
  revert t; induction vs as [|v0 vs IH]; intros t Hv; [destruct Hv|].
  rewrite insert_rows_cons; destruct Hv as [<- | Hv]; [|apply IH; exact Hv].
  destruct (existsb _ t) eqn:X.
  - apply existsb_cid in X as (r & Hr & E).
    destruct (insert_rows_prefix t vs) as (nw & Ei & _).
    exists r; rewrite Ei; split; [apply in_or_app; left; exact Hr | exact E].
  - destruct (insert_rows_prefix (t ++ [v0]) vs) as (nw & Ei & _).
    exists v0; rewrite Ei; split; [|reflexivity].
    apply in_or_app; left; apply in_or_app; right; left; reflexivity.
Qed.

Lemma insert_rows_present (t vs : list row) :
  (forall v, In v vs -> exists r, In r t /\ row_cid r = row_cid v) -> insert_rows t vs = t.
Proof.
  induction vs as [|v vs IH]; intros Hp; [reflexivity|].
  rewrite insert_rows_cons.
  assert (X : existsb (fun r => String.eqb (row_cid r) (row_cid v)) t = true)
    by (apply existsb_cid, Hp; left; reflexivity).
  rewrite X; apply IH; intros; apply Hp; right; auto.
Qed.

Lemma insert_rows_fresh (t vs : list row) :
  List.NoDup (map row_cid vs) ->
  (forall v r, In v vs -> In r t -> row_cid r <> row_cid v) ->
  insert_rows t vs = t ++ vs.
Proof.
  revert t; induction vs as [|v vs IH]; intros t Hnd Hf; [rewrite app_nil_r; reflexivity|].
  simpl in Hnd; inversion Hnd as [|? ? Hn Hnd']; subst.
  rewrite insert_rows_cons.
  destruct (existsb _ t) eqn:X.
  { apply existsb_cid in X as (r & Hr & E); exfalso; exact (Hf v r (or_introl eq_refl) Hr E). }
  rewrite IH, <- app_assoc; [reflexivity | exact Hnd'|].
  intros v' r Hv' Hr; apply in_app_or in Hr as [Hr | [<- | []]].
  - apply Hf; [right|]; auto.
  - intros E; apply Hn; rewrite E; apply in_map; exact Hv'.
Qed.

Section StoreFacts2.
Context {D : Type} `{Codec D}.

Lemma map_row_cid (ds : list D) :
  map row_cid (map createDelegationRowUpdateV3 ds) = map delegation_cid ds.
Proof. rewrite map_map; reflexivity. Qed.

Lemma putMany_cons_rows (d : D) (ds : list D) (st : store) :
  rows (snd (putMany (d :: ds) st)) = insert_rows (rows st) (map createDelegationRowUpdateV3 (d :: ds)).
Proof. reflexivity. Qed.

Lemma putMany_cons_dags (d : D) (ds : list D) (st : store) :
  dags (snd (putMany (d :: ds) st)) = writeDelegations (dags st) (d :: ds).
Proof. reflexivity. Qed.

Lemma read_after_write (ds : list D) (st : store) (d : D) :
  List.NoDup (map delegation_cid ds) ->
  (forall d, In d ds -> bytesToDelegations (delegationsToBytes [d]) = [d]) ->
  In d ds ->
  rowToDelegation (createDelegationRowUpdateV3 d) (dags (snd (putMany ds st))) = Ok d.
Proof.
  intros Hnd Hrt Hd; destruct ds as [|d0 ds]; [destruct Hd|].
  rewrite putMany_cons_dags; unfold rowToDelegation; cbn [row_cid createDelegationRowUpdateV3].
  rewrite write_lookup by assumption; rewrite Hrt by exact Hd; reflexivity.
Qed.





(** When every row whose CAR file is present decodes to one delegation
    and some row has no CAR file, the generator stops at the first row,
    in streaming order, without one. *)
Lemma yield_rows_first_missing (rs : list row) (b : gmap string (list Byte.byte)) :
  (forall r, In r rs -> b !! carFileKeyer (row_cid r) <> None ->
     exists d, rowToDelegation (D:=D) r b = Ok d) ->
  (exists r, In r rs /\ b !! carFileKeyer (row_cid r) = None) ->
  exists rs1 r rs2 l, rs = rs1 ++ r :: rs2 /\ b !! carFileKeyer (row_cid r) = None /\
    Forall2 (fun r d => rowToDelegation r b = Ok d) rs1 l /\
    yield_rows rs b = (l, Some (new_Error ("failed to read car bytes for cid " +:+ row_cid r))).
Proof.
  induction rs as [|r0 rs IH]; intros Hok (r & Hr & Hm); [destruct Hr|].
  destruct (b !! carFileKeyer (row_cid r0)) as [car|] eqn:E.
  - destruct (Hok r0 (or_introl eq_refl)) as (d0 & Hd0); [rewrite E; discriminate|].
    destruct Hr as [<- | Hr]; [congruence|].
    destruct IH as (rs1 & r1 & rs2 & l & -> & Hm1 & F & Y);
      [intros; apply Hok; auto; right; auto | exists r; auto|].
    exists (r0 :: rs1), r1, rs2, (d0 :: l); repeat split; [exact Hm1 | constructor; auto |].
    cbn [yield_rows app]; rewrite Hd0, Y; reflexivity.
  - exists [], r0, rs, []; repeat split; [exact E | constructor |].
    cbn [yield_rows]; unfold rowToDelegation; rewrite E; reflexivity.
Qed.

End StoreFacts2.

Lemma json_stringify_nonempty (l : list string) : String.eqb (json_stringify l) "" = false.
Proof. reflexivity. Qed.

Lemma substring_full (s : string) (n : nat) : String.length s <= n -> substring 0 n s = s.
Proof.
  revert n; induction s as [|c s IH]; intros [|n] Hn; simpl in *; try lia; auto.
  f_equal; apply IH; lia.
Qed.

Lemma replace_first_mailto (s : string) : replace_first "mailto:" "" ("mailto:" +:+ s) = s.
Proof.
  simpl; change ("" +:+ s) with s; destruct s; simpl;
    [reflexivity | change ("" +:+ ?x) with x; f_equal; apply substring_full; lia].
Qed.

Lemma find_snoc {A} (f : A -> bool) (l : list A) (x : A) :
  (forall y, In y l -> f y = false) -> List.find f (l ++ [x]) = if f x then Some x else None.
Proof.
  induction l as [|y l IH]; intros Hf; simpl; [destruct (f x); reflexivity|].
  rewrite Hf by (left; reflexivity); apply IH; intros; apply Hf; right; auto.
Qed.

Section StoreExtras.
Context {D : Type} `{Codec D}.

(** Reading back what [putMany] wrote: for delegations with distinct cids
    whose CAR encoding decodes back to them, [#rowToDelegation] on the row
    [putMany] builds for any of them returns that delegation. *)
Theorem putMany_rowToDelegation (ds : list D) (st : store) (d : D) :
  List.NoDup (map delegation_cid ds) ->
  (forall d', In d' ds -> bytesToDelegations (delegationsToBytes [d']) = [d']) ->
  In d ds ->
  rowToDelegation (createDelegationRowUpdateV3 d) (dags (snd (putMany ds st))) = Ok d.
Proof. apply read_after_write. Qed.

(** [putMany] only appends rows (a conflicting cid leaves the existing row
    as it is), each appended row is the row of one of the delegations, every
    delegation has a row with its cid afterwards, and the cids of the table
    stay distinct. *)
Theorem putMany_rows (ds : list D) (st : store) :
  List.NoDup (map row_cid (rows st)) ->
  (exists nw, rows (snd (putMany ds st)) = rows st ++ nw /\
              forall r, In r nw -> exists d, In d ds /\ r = createDelegationRowUpdateV3 d) /\
  List.NoDup (map row_cid (rows (snd (putMany ds st)))) /\
  (forall d, In d ds -> exists r, In r (rows (snd (putMany ds st))) /\
                                  row_cid r = delegation_cid d).
Proof.
  intros Hnd; destruct ds as [|d0 ds].
  { split; [exists []; rewrite app_nil_r; split; [reflexivity | intros _ []]|].
    split; [exact Hnd | intros _ []]. }
  rewrite putMany_cons_rows; split; [|split].
  - destruct (insert_rows_prefix (rows st) (map createDelegationRowUpdateV3 (d0 :: ds)))
      as (nw & E & Hn).
    exists nw; split; [exact E|]; intros r Hr; apply Hn, in_map_iff in Hr as (d & <- & Hd).
    exists d; auto.
  - apply insert_rows_nodup; exact Hnd.
  - intros d Hd; apply (insert_rows_has _ _ (createDelegationRowUpdateV3 d)).
    apply in_map; exact Hd.
Qed.

(** [putMany] is idempotent: storing the same delegations again changes
    neither the bucket nor the table. *)
Theorem putMany_idempotent (ds : list D) (st : store) :
  putMany ds (snd (putMany ds st)) = putMany ds st.
Proof.
  destruct ds as [|d0 ds]; [reflexivity|].
  unfold putMany; cbn [length Nat.eqb snd dags rows canStream].
  rewrite write_idempotent, insert_rows_present; [reflexivity|].
  intros v Hv; apply insert_rows_has; exact Hv.
Qed.

(** [count()] after [putMany] of delegations with distinct cids, none of
    them in the table yet, grows by their number. *)
Theorem count_putMany (ds : list D) (st : store) :
  List.NoDup (map delegation_cid ds) ->
  (forall d r, In d ds -> In r (rows st) -> row_cid r <> delegation_cid d) ->
  count (snd (putMany ds st)) = (count st + Z.of_nat (length ds))%Z.
Proof.
  intros Hnd Hf; destruct ds as [|d0 ds]; [unfold count; simpl; lia|].
  unfold count; rewrite putMany_cons_rows, insert_rows_fresh.
  - rewrite length_app, length_map; lia.
  - rewrite map_row_cid; exact Hnd.
  - intros v r Hv Hr; apply in_map_iff in Hv as (d & <- & Hd); apply Hf; auto.
Qed.

(** Streaming stops at the first row, in whatever order the database
    streams the rows, whose CAR file is missing from the bucket, when every
    other row decodes: the delegations of the rows streamed before it are
    yielded, then the iterator throws ["failed to read car bytes for cid
    ..."] for that row. The [select] has no [ORDER BY], so the statement
    holds for every order of the table's rows. *)
Theorem asyncIterator_missing_car (st : store) (rs : list row) :
  canStream st = true ->
  (forall r, In r (rows st) -> dags st !! carFileKeyer (row_cid r) <> None ->
     exists d, rowToDelegation r (dags st) = Ok d) ->
  (exists r, In r (rows st) /\ dags st !! carFileKeyer (row_cid r) = None) ->
  Permutation (rows st) rs ->
  exists rs1 r rs2 ds, rs = rs1 ++ r :: rs2 /\ dags st !! carFileKeyer (row_cid r) = None /\
    Forall2 (fun r d => rowToDelegation r (dags st) = Ok d) rs1 ds /\
    asyncIterator (mkStore (dags st) rs (canStream st)) =
      (ds, Some (new_Error ("failed to read car bytes for cid " +:+ row_cid r))).
Proof.
  intros Hs Hok (r & Hr & Hm) P; unfold asyncIterator; cbn [canStream rows dags].
  rewrite Hs; simpl negb; cbv iota.
  apply yield_rows_first_missing.
  - intros r' Hr'; apply Hok; eapply Permutation_in; [apply Permutation_sym; exact P | exact Hr'].
  - exists r; split; [eapply Permutation_in; eauto | exact Hm].
Qed.


(** [hasDelegations] holds exactly when [getDelegations] returns a list
    (the stored JSON text is never empty, even for an empty list), and
    always after [saveDelegation]. *)
Theorem hasDelegations_iff (email : string) (kv : gmap string (list string)) (d : D) :
  (hasDelegations email kv = true <-> getDelegations email kv <> None) /\
  hasDelegations email (saveDelegation email d kv) = true.
Proof.
  unfold hasDelegations, getDelegations, saveDelegation; split.
  - destruct (kv !! email); rewrite ?json_stringify_nonempty; simpl; split; congruence.
  - destruct (kv !! email); rewrite lookup_insert_eq, json_stringify_nonempty; reflexivity.
Qed.

(** Saving several delegations one after the other keeps them all, in
    order, after what was stored before. *)
Theorem saveDelegation_many (email : string) (ds : list D) (kv : gmap string (list string)) :
  ds <> [] ->
  getDelegations email (fold_left (fun kv d => saveDelegation email d kv) ds kv) =
    Some (default [] (getDelegations email kv) ++ map delegationToString ds).
Proof.
  unfold getDelegations.
  assert (S1 : forall d kv, saveDelegation email d kv !! email =
                 Some (default [] (kv !! email) ++ [delegationToString d]))
    by (intros d kv0; unfold saveDelegation; destruct (kv0 !! email);
        rewrite lookup_insert_eq; reflexivity).
  assert (G : forall ds kv, kv !! email <> None ->
            fold_left (fun kv d => saveDelegation email d kv) ds kv !! email =
            Some (default [] (kv !! email) ++ map delegationToString ds)).
  { induction ds0 as [|d ds0 IH]; intros kv0 Hk.
    - cbn [fold_left map]; destruct (kv0 !! email); [|congruence]; simpl; rewrite app_nil_r; reflexivity.
    - simpl; rewrite IH by (rewrite S1; discriminate); rewrite S1; simpl.
      rewrite <- app_assoc; reflexivity. }
  intros Hne; destruct ds as [|d ds]; [congruence|].
  simpl; rewrite G by (rewrite S1; discriminate); rewrite S1; simpl.
  rewrite <- app_assoc; reflexivity.
Qed.

End StoreExtras.

(** [Uint8Array.from] on a plain array of integers: the bytes are the
    values modulo 256, as many as the values, each in 0..255, and equal to
    the values when these are bytes already. *)
Theorem bytes_of_array (values : list Z) :
  exists out, delegationsTableBytesToArrayBuffer (SqlArray values) = Some out /\
    length out = length values /\ Forall (fun x => (0 <= x < 256)%Z) out /\
    (Forall (fun x => (0 <= x < 256)%Z) values -> out = values).
Proof.
  exists (map to_uint8 values); split; [reflexivity|]; split; [apply length_map|]; split.
  - apply List.Forall_forall; intros x Hx; apply in_map_iff in Hx as (y & <- & _).
    unfold to_uint8; apply Z.mod_pos_bound; lia.
  - intros F; induction F as [|x l Hx F IH]; [reflexivity|].
    simpl; rewrite IH; f_equal; unfold to_uint8; apply Z.mod_small; lia.
Qed.

(** [Accounts.get] after [Accounts.create] with an identity
    ["mailto:" ++ s], for an account DID not in the table yet, returns the
    account with its DID, agent, product and the e-mail [s]. *)
Theorem get_create (acct product s agent : string) (table : list account_row) :
  (forall r, In r table -> r !! "did" <> Some acct) ->
  exists a, get acct (create acct product ("mailto:" +:+ s) agent table) = Some a /\
    acc_did a = Some acct /\ acc_agent a = Some agent /\ acc_email a = Some s /\
    acc_product a = Some product.
Proof.
  intros Hn; unfold get, create; rewrite find_snoc.
  - match goal with |- context [decide ?P] => destruct (decide P) as [_|N] end;
      [| exfalso; apply N; apply lookup_insert_eq].
    eexists; split; [reflexivity|]; cbn [acc_did acc_agent acc_email acc_product].
    rewrite replace_first_mailto.
    repeat split; simplify_map_eq; reflexivity.
  - intros y Hy; destruct (decide (y !! "did" = Some acct)) as [E|]; [|reflexivity].
    exfalso; exact (Hn y Hy E).
Qed.

(* ------------------------------------------------------------------ *)
(** * Instances of the store properties *)


Lemma putMany_rowToDelegation_witness :
  rowToDelegation (createDelegationRowUpdateV3 ex_login)
    (dags (snd (putMany [ex_login] (mkStore empty [] true)))) = Ok ex_login.
Proof.
  refine (putMany_rowToDelegation [ex_login] (mkStore empty [] true) ex_login _ _ _).
  - constructor; [intros [] | constructor].
  - intros d [<- | []]; reflexivity.
  - left; reflexivity.
Defined.

Lemma putMany_rows_witness :
  (exists nw, rows (snd (putMany [ex_login; ex_add] (mkStore empty [ex_row_login] true))) =
              [ex_row_login] ++ nw /\
     forall r, In r nw -> exists d, In d [ex_login; ex_add] /\ r = createDelegationRowUpdateV3 d) /\
  List.NoDup (map row_cid (rows (snd (putMany [ex_login; ex_add]
                                       (mkStore empty [ex_row_login] true))))) /\
  (forall d, In d [ex_login; ex_add] ->
     exists r, In r (rows (snd (putMany [ex_login; ex_add] (mkStore empty [ex_row_login] true)))) /\
               row_cid r = delegation_cid d).
Proof.
  refine (putMany_rows [ex_login; ex_add] (mkStore empty [ex_row_login] true) _).
  constructor; [intros [] | constructor].
Defined.

Lemma count_putMany_witness :
  count (snd (putMany [ex_login; ex_add] (mkStore empty [] true))) =
  (count (mkStore empty [] true) + Z.of_nat (length [ex_login; ex_add]))%Z.
Proof.
  refine (count_putMany [ex_login; ex_add] (mkStore empty [] true) _ _).
  - constructor; [simpl; intuition discriminate | constructor; [intros [] | constructor]].
  - intros d r _ [].
Defined.

Lemma asyncIterator_missing_car_witness :
  exists rs1 r rs2 ds, [ex_row_add; ex_row_login] = rs1 ++ r :: rs2 /\
    ({[ "bafylogin.car" := [Byte.x00] ]} : gmap string (list Byte.byte))
      !! carFileKeyer (row_cid r) = None /\
    Forall2 (fun r d => rowToDelegation (D:=delegation) r {[ "bafylogin.car" := [Byte.x00] ]}
                        = Ok d) rs1 ds /\
    asyncIterator (D:=delegation)
      (mkStore {[ "bafylogin.car" := [Byte.x00] ]} [ex_row_add; ex_row_login] true) =
      (ds, Some (new_Error ("failed to read car bytes for cid " +:+ row_cid r))).
Proof.
  refine (asyncIterator_missing_car
            (mkStore {[ "bafylogin.car" := [Byte.x00] ]} [ex_row_login; ex_row_add] true)
            [ex_row_add; ex_row_login] _ _ _ _).
  - reflexivity.
  - intros r [<- | [<- | []]] Hp.
    + exists ex_login; vm_compute; reflexivity.
    + exfalso; apply Hp; vm_compute; reflexivity.
  - exists ex_row_add; split; [right; left; reflexivity | vm_compute; reflexivity].
  - apply perm_swap.
Defined.


Lemma hasDelegations_iff_witness :
  hasDelegations ex_email (saveDelegation ex_email ex_login empty) = true.
Proof. exact (proj2 (hasDelegations_iff ex_email empty ex_login)). Defined.

Lemma saveDelegation_many_witness :
  getDelegations ex_email
    (fold_left (fun kv d => saveDelegation ex_email d kv) [ex_login; ex_add]
       {[ ex_email := ["bafyatt"] ]}) =
  Some (["bafyatt"] ++ ["bafylogin"; "bafyadd"]).
Proof.
  refine (eq_trans (saveDelegation_many ex_email [ex_login; ex_add]
                      {[ ex_email := ["bafyatt"] ]} _) _).
  - discriminate.
  - vm_compute; reflexivity.
Defined.

Lemma bytes_of_array_witness :
  exists out, delegationsTableBytesToArrayBuffer (SqlArray [1; 300]%Z) = Some out /\
    length out = length [1; 300]%Z /\ Forall (fun x => (0 <= x < 256)%Z) out /\
    (Forall (fun x => (0 <= x < 256)%Z) [1; 300]%Z -> out = [1; 300]%Z).
Proof. exact (bytes_of_array [1; 300]%Z). Defined.

Lemma get_create_witness :
  exists a, get ex_account (create ex_account ex_space ("mailto:" +:+ "alice@web.mail")
                              ex_agent []) = Some a /\
    acc_did a = Some ex_account /\ acc_agent a = Some ex_agent /\
    acc_email a = Some "alice@web.mail" /\ acc_product a = Some ex_space.
Proof.
  refine (get_create ex_account ex_space "alice@web.mail" ex_agent [] _).
  intros r [].
Defined.

(* ------------------------------------------------------------------ *)
(** * Text constraints of the query *)

Lemma insert_auth_in (acc : list authorization) (a r : authorization) :
  In r (insert_auth acc a) ->
  r = a \/ In r acc \/ exists r0, In r0 acc /\ r = merge r0 a.
Proof.
  induction acc as [|r1 acc IH]; simpl; [intros [<- | []]; auto|].
  destruct (same_pair r1 a).
  - intros [<- | H]; [right; right; exists r1; auto | right; left; right; exact H].
  - intros [<- | H]; [right; left; left; reflexivity|].
    destruct (IH H) as [E | [H1 | (r0 & H0 & E)]]; auto.
    right; right; exists r0; auto.
Qed.

Lemma group_pairs_from (bs : list authorization) (r : authorization) :
  In r (group bs) ->
  exists b, In b bs /\ authority b = authority r /\ subject b = subject r.
Proof.
  unfold group.
  set (Q := fun r => exists b, In b bs /\ authority b = authority r /\ subject b = subject r).
  assert (K : forall bs' acc, (forall r, In r acc -> Q r) -> (forall b, In b bs' -> Q b) ->
                forall r, In r (fold_left insert_auth bs' acc) -> Q r).
  { induction bs' as [|a bs' IH]; simpl; intros acc Ha Hb; [exact Ha|].
    apply IH; [|intros; apply Hb; right; auto].
    intros r0 H0; destruct (insert_auth_in acc a r0 H0) as [-> | [H1 | (r1 & H1 & ->)]].
    - apply Hb; left; reflexivity.
    - apply Ha; exact H1.
    - destruct (Ha r1 H1) as (b & Hb' & E1 & E2); exists b; auto. }
  apply (K bs []); [intros _ [] | intros b Hb; exists b; auto].
Qed.

Lemma text_match_sound (F : list fact) (n : nat) (c : text_constraint) (e1 e2 : env) :
  In e2 (eval F (text_match (Var n) c) e1) ->
  exists x, lookup_env n e2 = Some (SStr x) /\ text_ok c x = true.
Proof.
  destruct c as [s | g]; simpl text_match.
  - intros H; apply in_eval_is in H as (v & Hv & U); simpl in Hv; injection Hv as <-.
    apply unify_sound in U as (_ & R); exists s; split; [exact R | apply String.eqb_refl].
  - intros H; apply in_eval_glob in H as (-> & x & pat & R1 & R2 & G).
    simpl in R2; injection R2 as <-; exists x; auto.
Qed.

Lemma solution_text (db : list delegation) (now : Z) (sel : selector) (e : env) :
  In e (solutions db now sel) ->
  exists x y, lookup_env 1 e = Some (SStr x) /\ text_ok (sel_audience sel) x = true /\
              lookup_env 0 e = Some (SStr y) /\ text_ok (default_subject sel) y = true.
Proof.
  unfold solutions; rewrite query_shape; cbn [q_where]; intros He.
  destruct (eval_all_each _ _ _ _ He (text_match (Var 1) (sel_audience sel)))
    as (e1 & e2 & H1 & X1); [apply in_or_app; right; right; left; reflexivity|].
  destruct (eval_all_each _ _ _ _ He (text_match (Var 0) (default_subject sel)))
    as (e3 & e4 & H3 & X3); [apply in_or_app; right; left; reflexivity|].
  apply text_match_sound in H1 as (x & L1 & T1); apply text_match_sound in H3 as (y & L0 & T0).
  exists x, y; repeat split; auto.
Qed.

(** Every record [find] returns satisfies the selector's text
    constraints: its authority matches the audience constraint and its
    subject the subject constraint (the glob ["*"] when none is given). *)
Theorem find_text_constraints (db : list delegation) (now : Z) (sel : selector)
  (r : authorization) :
  In r (find db now sel) ->
  text_ok (sel_audience sel) (authority r) = true /\
  text_ok (default_subject sel) (subject r) = true.
Proof.
  unfold find; intros Hr; apply group_pairs_from in Hr as (b & Hb & <- & <-).
  apply in_filter_map in Hb as (e & He & Hbe).
  destruct (solution_text db now sel e He) as (x & y & L1 & T1 & L0 & T0).
  unfold binding_authorization in Hbe; rewrite query_shape in Hbe;
    cbn [q_audience q_subject resolve] in Hbe; rewrite L1, L0 in Hbe.
  cbn [str_of] in Hbe; injection Hbe as <-; split; assumption.
Qed.

Lemma find_text_constraints_witness :
  text_ok (sel_audience ex_login_sel) (authority ex_login_auth) = true /\
  text_ok (default_subject ex_login_sel) (subject ex_login_auth) = true.
Proof.
  refine (find_text_constraints [ex_login; ex_att] 0 ex_login_sel ex_login_auth _).
  vm_compute; left; reflexivity.
Defined.
